(** * Page selection and per-page text policy of [scripts/pdf_reader_pipeline.py]

    A shallow embedding of the [--pages] parser ([parse_pages_arg] with its
    helpers [_parse_one_token], [_parse_endpoint] and the two regular
    expressions [_SINGLE_RE], [_RANGE_RE]) and of the scanned-page policy of
    [PDFInspector] ([_is_scanned] and the choice between the direct text and
    the OCR text in [extract_full_text]).

    Python strings are lists of Unicode code points, Python integers are [Z],
    raised exceptions are an explicit [Raise] result. *)

From stdpp Require Import base strings list list_numbers sorting gmap.
From Stdlib Require Import ZArith NArith Lia.

Local Open Scope Z_scope.

(** ** Python strings *)

Abbreviation char := N.
Abbreviation str := (list N).

(** An ASCII literal of the source, as a Python string. *)
Definition py (s : string) : str :=
  map Ascii.N_of_ascii (String.list_ascii_of_string s).
Arguments py : simpl never.

(** The part of the interpreter's Unicode database that lies outside ASCII.
    The code only consults it through [\d], [str.isdigit], [int] and
    [str.lower]; the development holds for every such database. *)
Class UnicodeData := {
  uni_todecimal : char → option Z;
  uni_isdigit : char → bool;
  uni_lower : str → str
}.

(** The database without any digit or case mapping beyond ASCII. *)
Definition ascii_only : UnicodeData :=
  {| uni_todecimal := λ _, None; uni_isdigit := λ _, false; uni_lower := λ s, s |}.

Definition is_ascii (c : char) : bool := (c <? 128)%N.

Definition ascii_digit (c : char) : bool := ((48 <=? c) && (c <=? 57))%N.

(** [Py_UNICODE_ISSPACE]: used by [str.isspace], [str.strip] and [\s]. *)
Definition Py_UNICODE_ISSPACE (c : char) : bool :=
  (((9 <=? c) && (c <=? 13)) || ((28 <=? c) && (c <=? 32))
   || (c =? 0x85) || (c =? 0xA0) || (c =? 0x1680)
   || ((0x2000 <=? c) && (c <=? 0x200A))
   || (c =? 0x2028) || (c =? 0x2029) || (c =? 0x202F) || (c =? 0x205F)
   || (c =? 0x3000))%N.

Section unicode.
Context `{UnicodeData}.

(** [Py_UNICODE_TODECIMAL]: the value of a decimal digit (category Nd). *)
Definition Py_UNICODE_TODECIMAL (c : char) : option Z :=
  if is_ascii c then
    if ascii_digit c then Some (Z.of_N c - 48) else None
  else uni_todecimal c.

(** [Py_UNICODE_ISDECIMAL]: what [\d] matches in a [str] pattern. *)
Definition Py_UNICODE_ISDECIMAL (c : char) : bool :=
  bool_decide (is_Some (Py_UNICODE_TODECIMAL c)).

(** [Py_UNICODE_ISDIGIT]: what [str.isdigit] tests. *)
Definition Py_UNICODE_ISDIGIT (c : char) : bool :=
  if is_ascii c then ascii_digit c else uni_isdigit c.

(** [str.lower]. *)
Definition lower (s : str) : str :=
  if forallb is_ascii s then
    map (λ c, if ((65 <=? c) && (c <=? 90))%N then (c + 32)%N else c) s
  else uni_lower s.

(** [str.isdigit]. *)
Definition isdigit (s : str) : bool :=
  bool_decide (s ≠ []) && forallb Py_UNICODE_ISDIGIT s.

(** [int(s)] at its call sites, where [s.isdigit()] holds: the decimal value
    of [s], or [None] for the [ValueError] of a digit that is no decimal. *)
Definition int_ (s : str) : option Z :=
  match s with
  | [] => None
  | _ => foldl (λ acc c, n ← acc; d ← Py_UNICODE_TODECIMAL c; Some (10 * n + d))
               (Some 0) s
  end.
End unicode.

(** [str.lstrip], [str.rstrip], [str.strip] without argument. *)
Fixpoint lstrip (s : str) : str :=
  match s with
  | c :: s' => if Py_UNICODE_ISSPACE c then lstrip s' else s
  | [] => []
  end.

Definition rstrip (s : str) : str := reverse (lstrip (reverse s)).

Definition strip (s : str) : str := rstrip (lstrip s).

(** [s.startswith(p)]. *)
Fixpoint startswith (p s : str) : bool :=
  match p, s with
  | [], _ => true
  | a :: p', b :: s' => bool_decide (a = b) && startswith p' s'
  | _ :: _, [] => false
  end.

(** [s.split(sep)] for a one-character separator. *)
Fixpoint split (sep : char) (s : str) : list str :=
  match s with
  | [] => [[]]
  | c :: s' =>
      if bool_decide (c = sep) then [] :: split sep s'
      else match split sep s' with
           | w :: ws => (c :: w) :: ws
           | [] => [[c]]
           end
  end.

(** [s.split(sep, 1)] for a one-character separator. *)
Fixpoint split1 (sep : char) (s : str) : list str :=
  match s with
  | [] => [[]]
  | c :: s' =>
      if bool_decide (c = sep) then [[]; s']
      else match split1 sep s' with
           | w :: ws => (c :: w) :: ws
           | [] => [[c]]
           end
  end.

(** [_DASHES]: the Unicode dashes U+2010..U+2015 and U+2212 go to [-]. *)
Definition _DASHES (c : char) : char :=
  if (((0x2010 <=? c) && (c <=? 0x2015)) || (c =? 0x2212))%N then 45%N else c.

(** [s.translate(_DASHES)]. *)
Definition translate (table : char → char) (s : str) : str := map table s.

(** [range(a, b)] and [sorted(set(l))] on integers. *)
Definition range (a b : Z) : list Z := seqZ a (b - a).

Definition sorted_set (l : list Z) : list Z :=
  merge_sort Z.le (elements (list_to_set l : gset Z)).

(** [len(s)]. *)
Definition len (s : str) : Z := Z.of_nat (length s).

(** ** Exceptions *)

(** The messages of the [ValueError]s the parser raises, with the text they
    name; [Invalid_literal] is the [ValueError] of [int] itself. *)
Inductive message :=
| Invalid_last_offset (tok : str)
| Page_out_of_range (tok : str)
| Invalid_token (tok : str)
| Endpoint_out_of_range (val : str)
| Invalid_endpoint (val : str)
| Empty_after_parsing (pages_arg : str)
| No_valid_pages (pages_arg : str)
| Invalid_literal (s : str).

Inductive exn :=
| ValueError (m : message)
| IndexError.

Inductive result (A : Type) :=
| Ok (a : A)
| Raise (e : exn).
Arguments Ok {A} a.
Arguments Raise {A} e.

#[global] Instance result_ret : MRet result := λ A a, Ok a.
#[global] Instance result_bind : MBind result :=
  λ A B f r, match r with Ok a => f a | Raise e => Raise e end.

(** The result is a raised exception. *)
Definition raises {A} (r : result A) : Prop :=
  match r with Raise _ => True | Ok _ => False end.

(** ** Regular expressions

    The fragment of [re] the two patterns use, with the backtracking order of
    the engine: [rmatch r st] lists the states in which a match of [r] from
    [st] can end, in the order in which the engine tries them. *)

Inductive cclass := cls_space | cls_digit.

Inductive regex :=
| Bol                          (* ^ *)
| Eol                          (* $ *)
| Lit (s : str)                (* literal text *)
| Star (k : cclass)            (* \s* , \d* : greedy *)
| Plus (k : cclass)            (* \s+ , \d+ : greedy *)
| Opt (r : regex)              (* (?:r)? : greedy *)
| Seq (r1 r2 : regex)
| Alt (r1 r2 : regex)          (* r1|r2 *)
| Grp (n : nat) (r : regex).   (* n-th capturing group *)

Record mstate := MState {
  pos : nat;                   (* characters consumed so far *)
  rest : str;                  (* text still to match *)
  groups : list (nat * str)    (* captured groups, latest first *)
}.

Definition advance (n : nat) (st : mstate) : mstate :=
  MState (pos st + n) (drop n (rest st)) (groups st).

Definition set_group (n : nat) (from : mstate) (st : mstate) : mstate :=
  MState (pos st) (rest st)
         ((n, take (pos st - pos from) (rest from)) :: groups st).

(** How many characters a greedy repetition of a class may take, longest
    run first. *)
Fixpoint runs (p : char → bool) (s : str) : list nat :=
  match s with
  | c :: s' => if p c then map S (runs p s') ++ [O] else [O]
  | [] => [O]
  end.

Section regex.
Context `{UnicodeData}.

Definition in_class (k : cclass) (c : char) : bool :=
  match k with
  | cls_space => Py_UNICODE_ISSPACE c
  | cls_digit => Py_UNICODE_ISDECIMAL c
  end.

Fixpoint rmatch (r : regex) (st : mstate) : list mstate :=
  match r with
  | Bol => if bool_decide (pos st = O) then [st] else []
  | Eol => if bool_decide (rest st = [] ∨ rest st = [10%N]) then [st] else []
  | Lit s => if startswith s (rest st) then [advance (length s) st] else []
  | Star k => map (λ n, advance n st) (runs (in_class k) (rest st))
  | Plus k =>
      map (λ n, advance n st)
          (filter (λ n, n ≠ O) (runs (in_class k) (rest st)))
  | Opt r => rmatch r st ++ [st]
  | Seq r1 r2 => flat_map (rmatch r2) (rmatch r1 st)
  | Alt r1 r2 => rmatch r1 st ++ rmatch r2 st
  | Grp n r => map (set_group n st) (rmatch r st)
  end.

(** [pattern.fullmatch(s)]: the first match, in backtracking order, that
    ends at the end of [s]; the result is its groups. *)
Definition fullmatch (r : regex) (s : str) : option (list (nat * str)) :=
  groups <$> head (filter (λ st, rest st = []) (rmatch r (MState O s []))).
End regex.

(** [m.group(n)] for a group that took part in the match. *)
Definition group (m : list (nat * str)) (n : nat) : str :=
  default [] (snd <$> head (filter (λ g, fst g = n) m)).

Infix "⋅" := Seq (at level 41, right associativity).

(** [last(?:-\d+)?] *)
Definition last_re : regex :=
  Lit (py "last") ⋅ Opt (Lit (py "-") ⋅ Plus cls_digit).

(** [^\s*(last(?:-\d+)?|\d+)\s*-\s*(last(?:-\d+)?|\d+)\s*$] *)
Definition _RANGE_RE : regex :=
  Bol ⋅ Star cls_space ⋅ Grp 1 (Alt last_re (Plus cls_digit)) ⋅ Star cls_space
  ⋅ Lit (py "-") ⋅ Star cls_space
  ⋅ Grp 2 (Alt last_re (Plus cls_digit)) ⋅ Star cls_space ⋅ Eol.

(** [^\s*(last(?:-\d+)?|\d+|all)\s*$] *)
Definition _SINGLE_RE : regex :=
  Bol ⋅ Star cls_space
  ⋅ Grp 1 (Alt last_re (Alt (Plus cls_digit) (Lit (py "all"))))
  ⋅ Star cls_space ⋅ Eol.

(** ** Page parsing *)

Section parser.
Context `{UnicodeData}.

(** [t.split("-", 1)[1]] followed by the [isdigit] test and [int]. *)
Definition last_offset (tok t : str) : result Z :=
  match split1 45%N t !! 1%nat with
  | None => Raise IndexError
  | Some off_str =>
      if negb (isdigit off_str) then Raise (ValueError (Invalid_last_offset tok))
      else match int_ off_str with
           | Some k => Ok k
           | None => Raise (ValueError (Invalid_literal off_str))
           end
  end.

(** Single token to 0-index page number; [-2] stands for all pages. *)
Definition _parse_one_token (tok : str) (total_pages : Z) : result Z :=
  let t := lower (strip tok) in
  if bool_decide (t = py "all") then Ok (-2)
  else if bool_decide (t = py "last") then Ok (total_pages - 1)
  else if startswith (py "last-") t then
    off ← last_offset tok t;
    let idx := total_pages - 1 - off in
    if negb (bool_decide (0 ≤ idx < total_pages))
    then Raise (ValueError (Page_out_of_range tok))
    else Ok idx
  else if isdigit t then
    match int_ t with
    | None => Raise (ValueError (Invalid_literal t))
    | Some p =>
        if negb (bool_decide (1 ≤ p ≤ total_pages))
        then Raise (ValueError (Page_out_of_range tok))
        else Ok (p - 1)
    end
  else Raise (ValueError (Invalid_token tok)).

(** Endpoint to 1-index page number. *)
Definition _parse_endpoint (val : str) (total_pages : Z) : result Z :=
  let t := lower (strip val) in
  if bool_decide (t = py "all" ∨ t = py "last") then Ok total_pages
  else if startswith (py "last-") t then
    off ← last_offset val t;
    let res := total_pages - off in
    if negb (bool_decide (1 ≤ res ≤ total_pages))
    then Raise (ValueError (Endpoint_out_of_range val))
    else Ok res
  else if isdigit t then
    match int_ t with
    | None => Raise (ValueError (Invalid_literal t))
    | Some res =>
        if negb (bool_decide (1 ≤ res ≤ total_pages))
        then Raise (ValueError (Endpoint_out_of_range val))
        else Ok res
    end
  else Raise (ValueError (Invalid_endpoint val)).

(** One iteration of [for raw in raw_arg.split(",")] on the loop state
    ([wanted], [any_tok]). *)
Definition loop_body (total_pages : Z) (st : list Z * bool) (raw : str)
  : result (list Z * bool) :=
  let '(wanted, any_tok) := st in
  let tok := strip raw in
  if bool_decide (tok = []) then Ok (wanted, any_tok)
  else
    let tok_l := lower tok in
    match fullmatch _SINGLE_RE tok_l with
    | Some _ =>
        idx ← _parse_one_token tok total_pages;
        if bool_decide (idx = -2)
        then Ok (wanted ++ range 0 total_pages, true)
        else Ok (wanted ++ [idx], true)
    | None =>
        match fullmatch _RANGE_RE tok_l with
        | Some m =>
            a ← _parse_endpoint (group m 1) total_pages;
            b ← _parse_endpoint (group m 2) total_pages;
            let '(a, b) := if bool_decide (a > b) then (b, a) else (a, b) in
            Ok (wanted ++ range (a - 1) b, true)
        | None => Raise (ValueError (Invalid_token tok))
        end
    end.

Fixpoint for_loop (total_pages : Z) (st : list Z * bool) (segs : list str)
  : result (list Z * bool) :=
  match segs with
  | [] => Ok st
  | raw :: segs' =>
      st' ← loop_body total_pages st raw;
      for_loop total_pages st' segs'
  end.

(** [parse_pages_arg]: [Ok None] is the returned [None], [Ok (Some l)] a
    returned list. The argument [None] is Python's [None]. *)
Definition parse_pages_arg (pages_arg : option str) (total_pages : Z)
  : result (option (list Z)) :=
  match pages_arg with
  | None | Some [] => Ok None
  | Some pages_arg =>
      let raw_arg := translate _DASHES pages_arg in
      '(wanted, any_tok) ← for_loop total_pages ([], false) (split 44%N raw_arg);
      if negb any_tok then Raise (ValueError (Empty_after_parsing pages_arg))
      else
        let res := sorted_set wanted in
        if bool_decide (res = []) then Raise (ValueError (No_valid_pages pages_arg))
        else Ok (Some res)
  end.

(** The spec's [resolve] on an expression that is present. *)
Definition resolve (expression : str) (total_pages : Z)
  : result (option (list Z)) :=
  parse_pages_arg (Some expression) total_pages.
End parser.

(** ** Scanned pages and the choice of a page's text *)

(** [PDFInspector._is_scanned]. *)
Definition _is_scanned (txt : str) : bool :=
  let stripped := filter (λ ch, ¬ Py_UNICODE_ISSPACE ch) txt in
  bool_decide (len stripped < 20).

(** The inner test of [extract_full_text]: the OCR text replaces the direct
    text when it is the longer one after [strip]. *)
Definition pick_text (txt ocr_txt : str) : str :=
  if bool_decide (len (strip ocr_txt) > len (strip txt)) then ocr_txt else txt.

(** The text [extract_full_text] appends for one page, given the page's
    direct text and what [_ocr_page] returns for it. *)
Definition page_text (ocr_if_scanned : bool) (ocr_page : str) (txt : str) : str :=
  if _is_scanned txt && ocr_if_scanned then pick_text txt ocr_page else txt.

(** [choose]: [pick_text] when the OCR step produced a text, the direct text
    when the step was skipped. *)
Definition choose (direct_text : str) (fallback_text : option str) : str :=
  match fallback_text with
  | Some ocr_txt => pick_text direct_text ocr_txt
  | None => direct_text
  end.

(** The number of non-whitespace characters of a text, counted one by one. *)
Fixpoint non_whitespace_count (txt : str) : Z :=
  match txt with
  | [] => 0
  | ch :: txt' =>
      (if Py_UNICODE_ISSPACE ch then 0 else 1) + non_whitespace_count txt'
  end.

(** ** Decimal numerals and endpoint texts *)

Definition digit_char (d : Z) : char := Z.to_N (48 + d).

Fixpoint digits_of (fuel : nat) (n : Z) : str :=
  match fuel with
  | O => []
  | S fuel' =>
      if bool_decide (n < 10) then [digit_char n]
      else digits_of fuel' (n / 10) ++ [digit_char (n mod 10)]
  end.

(** Python's [str(n)], as in the f-strings [f"{P}"] and [f"last-{K}"]. *)
Definition str_of_Z (n : Z) : str :=
  if bool_decide (n < 0) then 45%N :: digits_of (S (Z.to_nat (- n))) (- n)
  else digits_of (S (Z.to_nat n)) n.

(** The three shapes of a range endpoint in an expression. *)
Inductive endpoint :=
| ep_page (n : Z)              (* N *)
| ep_last                      (* last *)
| ep_last_minus (k : Z).       (* last-K *)

Definition endpoint_text (e : endpoint) : str :=
  match e with
  | ep_page n => str_of_Z n
  | ep_last => py "last"
  | ep_last_minus k => py "last-" ++ str_of_Z k
  end.

(** The one-based page an endpoint stands for. *)
Definition endpoint_page (total_pages : Z) (e : endpoint) : Z :=
  match e with
  | ep_page n => n
  | ep_last => total_pages
  | ep_last_minus k => total_pages - k
  end.

Definition endpoint_valid (total_pages : Z) (e : endpoint) : Prop :=
  match e with
  | ep_page n => 1 ≤ n ≤ total_pages
  | ep_last => True
  | ep_last_minus k => 0 ≤ k ∧ 1 ≤ total_pages - k
  end.

(** The token [e1-e2]. *)
Definition range_text (e1 e2 : endpoint) : str :=
  endpoint_text e1 ++ py "-" ++ endpoint_text e2.

(** [last-N] reads as a single token, not as the range from [last] to [N]. *)
Definition reads_as_single (e1 e2 : endpoint) : Prop :=
  match e1, e2 with
  | ep_last, ep_page _ => True
  | _, _ => False
  end.

(** ** Notions used in the statements and proofs *)

(** A text made of at least one ASCII digit. *)
Definition numeral (ds : str) : Prop :=
  ds ≠ [] ∧ Forall (λ c, ascii_digit c = true) ds.

(** The characters of the tokens the claims are about: ASCII digits, [-] and
    lower-case ASCII letters. *)
Definition token_char (c : char) : bool :=
  (ascii_digit c || (c =? 45) || ((97 <=? c) && (c <=? 122)))%N.

(** The text does not begin with a character of the class. *)
Definition no_start (p : char → bool) (r : str) : Prop :=
  match r with
  | c :: _ => p c = false
  | [] => True
  end.

(** The number of [-] in a text. *)
Definition dashes (s : str) : nat := length (filter (λ c, c = 45%N) s).

(** The texts a pattern can consume, whatever the backtracking order. *)
Fixpoint shape `{UnicodeData} (r : regex) (w : str) : Prop :=
  match r with
  | Bol | Eol => w = []
  | Lit s => w = s
  | Star k => Forall (λ c, in_class k c = true) w
  | Plus k => w ≠ [] ∧ Forall (λ c, in_class k c = true) w
  | Opt r => shape r w ∨ w = []
  | Seq r1 r2 => ∃ w1 w2, w = w1 ++ w2 ∧ shape r1 w1 ∧ shape r2 w2
  | Alt r1 r2 => shape r1 w ∨ shape r2 w
  | Grp _ r => shape r w
  end.

(** A non-empty text of token characters. *)
Definition plain (s : str) : Prop :=
  s ≠ [] ∧ Forall (λ c, token_char c = true) s.

(** The text does not begin with an offset [-<digits>]. *)
Definition no_offset `{UnicodeData} (r : str) : Prop :=
  match r with
  | c :: r' => c = 45%N → no_start Py_UNICODE_ISDECIMAL r'
  | [] => True
  end.

(** What may follow an endpoint for the greedy match to stop after it. *)
Definition follows `{UnicodeData} (e : endpoint) (r : str) : Prop :=
  match e with
  | ep_last => no_offset r
  | _ => no_start Py_UNICODE_ISDECIMAL r
  end.

(** The numbers of an endpoint are written without sign. *)
Definition unsigned (e : endpoint) : Prop :=
  match e with
  | ep_page n => 0 ≤ n
  | ep_last => True
  | ep_last_minus k => 0 ≤ k
  end.

(** ** Notions for the properties of the whole pipeline *)

(** Two results agree: the same value, or an exception on both sides. *)
Definition same_outcome {A} (r1 r2 : result A) : Prop :=
  match r1, r2 with
  | Ok a, Ok b => a = b
  | Raise _, Raise _ => True
  | _, _ => False
  end.

(** The errors a single token raises inside the loop, as opposed to the two
    raised after it. *)
Definition token_error (m : message) : Prop :=
  match m with
  | Empty_after_parsing _ | No_valid_pages _ => False
  | _ => True
  end.

(** A text of whitespace only. *)
Definition blank (s : str) : Prop :=
  Forall (λ c, Py_UNICODE_ISSPACE c = true) s.

(** [len(l)] of a list of pages. *)
Definition len_pages (l : list Z) : Z := Z.of_nat (length l).

(** The texts a pattern can consume, with the groups it records on the way. *)
Fixpoint gshape `{UnicodeData} (r : regex) (w : str) (g g' : list (nat * str))
  : Prop :=
  match r with
  | Bol | Eol => w = [] ∧ g' = g
  | Lit s => w = s ∧ g' = g
  | Star k => Forall (λ c, in_class k c = true) w ∧ g' = g
  | Plus k => (w ≠ [] ∧ Forall (λ c, in_class k c = true) w) ∧ g' = g
  | Opt r => gshape r w g g' ∨ (w = [] ∧ g' = g)
  | Seq r1 r2 =>
      ∃ w1 w2 gm, w = w1 ++ w2 ∧ gshape r1 w1 g gm ∧ gshape r2 w2 gm g'
  | Alt r1 r2 => gshape r1 w g g' ∨ gshape r2 w g g'
  | Grp n r => ∃ gi, gshape r w g gi ∧ g' = (n, w) :: gi
  end.

(** The three forms of a range endpoint: [last], [last-<digits>], [<digits>]. *)
Definition endpoint_form `{UnicodeData} (g : str) : Prop :=
  g = py "last"
  ∨ ∃ ds, (ds ≠ [] ∧ Forall (λ c, Py_UNICODE_ISDECIMAL c = true) ds)
          ∧ (g = py "last-" ++ ds ∨ g = ds).

(** The four forms of a single token: an endpoint form or [all]. *)
Definition single_form `{UnicodeData} (t : str) : Prop :=
  endpoint_form t ∨ t = py "all".


(** A pattern without [^] and [$]. *)
Fixpoint anchor_free (r : regex) : bool :=
  match r with
  | Bol | Eol => false
  | Lit _ | Star _ | Plus _ => true
  | Opt r | Grp _ r => anchor_free r
  | Seq r1 r2 | Alt r1 r2 => anchor_free r1 && anchor_free r2
  end.

(** A sequence of patterns without anchors that ends in [$]. *)
Fixpoint ends_in_eol (r : regex) : bool :=
  match r with
  | Eol => true
  | Seq r1 r2 => anchor_free r1 && ends_in_eol r2
  | _ => false
  end.

(** ** Text extraction

    The document engine and the OCR engine are outside the program. A
    document is what they answer for a page index the engine accepts: the
    page count, the text of [page.get_text("text") or ""] and the text of
    [pytesseract.image_to_string(...) or ""] on the rendered page. *)
Record document := Document {
  page_count : Z;
  get_text : Z → str;
  image_to_string : Z → str
}.

(** [PDFInspector._ocr_page], with the module flag [TESS_AVAILABLE]. *)
Definition _ocr_page (TESS_AVAILABLE : bool) (doc : document) (i : Z) : str :=
  if negb TESS_AVAILABLE then [] else image_to_string doc i.

(** [sep.join(l)]. *)
Fixpoint join (sep : str) (l : list str) : str :=
  match l with
  | [] => []
  | x :: l' => match l' with [] => x | _ => x ++ sep ++ join sep l' end
  end.

(** [PDFInspector.extract_full_text]: the list left in [self.text_per_page]
    and the returned text. *)
Definition extract_full_text (TESS_AVAILABLE ocr_if_scanned : bool)
    (doc : document) (selected_pages : option (list Z)) : list str * str :=
  let indices :=
    match selected_pages with
    | None => range 0 (page_count doc)
    | Some l => l
    end in
  let text_per_page :=
    (λ i, let txt := get_text doc i in
          if _is_scanned txt && ocr_if_scanned then
            let ocr_txt := _ocr_page TESS_AVAILABLE doc i in
            if bool_decide (len (strip ocr_txt) > len (strip txt))
            then ocr_txt else txt
          else txt) <$> indices in
  (text_per_page, join [10; 10]%N text_per_page).

(** [f"{n:04d}"]: the decimal digits, filled with zeros to four characters,
    the sign included. *)
Definition format_04d (n : Z) : str :=
  if bool_decide (n < 0) then
    let ds := digits_of (S (Z.to_nat (- n))) (- n) in
    45%N :: replicate (3 - length ds) 48%N ++ ds
  else
    let ds := digits_of (S (Z.to_nat n)) n in
    replicate (4 - length ds) 48%N ++ ds.

(** The name [f"page_{idx+1:04d}.txt"] under the output directory. *)
Definition page_txt_name (idx : Z) : str :=
  py "page_" ++ format_04d (idx + 1) ++ py ".txt".

(** [PDFInspector.write_per_page_txt] on the files of [outdir], a map from
    file name to content; [text_per_page] is the list kept in [self]. *)
Definition write_per_page_txt (selected_pages : list Z)
    (text_per_page : list str) (outdir : gmap (list N) (list N))
  : gmap (list N) (list N) :=
  foldl (λ files '(idx, txt), <[page_txt_name idx := txt]> files)
        outdir (zip selected_pages text_per_page).

(** * Properties *)

Example sorted_set_ex : sorted_set [8; 0; 1; 9; 1; 0] = [0; 1; 8; 9].
Proof. vm_compute. reflexivity. Qed.

Example split_ex : split 44%N (py "1-2,,last") = [py "1-2"; []; py "last"].
Proof. vm_compute. reflexivity. Qed.

Example strip_ex : strip (py "  a b ") = py "a b".
Proof. vm_compute. reflexivity. Qed.

Example int_ex `{UnicodeData} : int_ (py "0042") = Some 42.
Proof. vm_compute. reflexivity. Qed.

Example str_of_Z_ex : str_of_Z 1204 = py "1204".
Proof. vm_compute. reflexivity. Qed.

Example resolve_mixed `{UnicodeData} :
  resolve (py "1-2,last-1,last") 10 = Ok (Some [0; 1; 8; 9]).
Proof. vm_compute. reflexivity. Qed.

Example resolve_last_2_last `{UnicodeData} :
  resolve (py "last-2-last") 10 = Ok (Some [7; 8; 9]).
Proof. vm_compute. reflexivity. Qed.

Example resolve_1_all `{UnicodeData} :
  resolve (py "1-all") 10 = Raise (ValueError (Invalid_token (py "1-all"))).
Proof. vm_compute. reflexivity. Qed.

Example resolve_last_5 `{UnicodeData} :
  resolve (py "last-5") 10 = Ok (Some [4]) ∧
  resolve (py "5-last") 10 = Ok (Some [4; 5; 6; 7; 8; 9]) ∧
  resolve (py " 2 " ++ [0x2013%N] ++ py " 5 , ALL") 6
  = Ok (Some [0; 1; 2; 3; 4; 5]).
Proof. vm_compute. auto. Qed.

(** ** [sorted(set(l))] *)

Lemma elem_of_sorted_set (l : list Z) (x : Z) : x ∈ sorted_set l ↔ x ∈ l.
Proof.
  unfold sorted_set. rewrite merge_sort_Permutation, elem_of_elements.
  apply elem_of_list_to_set.
Qed.

Lemma NoDup_sorted_set (l : list Z) : NoDup (sorted_set l).
Proof.
  unfold sorted_set. rewrite merge_sort_Permutation. apply NoDup_elements.
Qed.

Lemma Sorted_sorted_set (l : list Z) : Sorted Z.le (sorted_set l).
Proof. unfold sorted_set. apply (Sorted_merge_sort Z.le). Qed.

Lemma strictly_sorted (l : list Z) :
  Sorted Z.le l → NoDup l → StronglySorted Z.lt l.
Proof.
  intros Hs%(Sorted_StronglySorted Z.le) Hn.
  induction Hs as [|x l Hs IH Hx]; [constructor|].
  apply NoDup_cons in Hn as [Hnx Hn]. constructor; [by apply IH|].
  apply Forall_forall. intros y Hy.
  pose proof (proj1 (Forall_forall _ _) Hx y Hy).
  assert (x ≠ y) by (intros ->; contradiction). lia.
Qed.

Lemma sorted_set_unique (l k : list Z) :
  Sorted Z.le k → NoDup k → (∀ x, x ∈ k ↔ x ∈ l) → sorted_set l = k.
Proof.
  intros Hs Hn Hel. apply (Sorted_unique Z.le).
  - apply Sorted_sorted_set.
  - exact Hs.
  - apply NoDup_Permutation; [apply NoDup_sorted_set | exact Hn |].
    intros x. rewrite elem_of_sorted_set. symmetry. apply Hel.
Qed.

Lemma Sorted_seqZ (a n : Z) : Sorted Z.le (seqZ a n).
Proof.
  destruct (decide (n ≤ 0)) as [Hn|Hn]; [rewrite seqZ_nil by lia; constructor|].
  rewrite <- (Z2Nat.id n) by lia. generalize (Z.to_nat n) as m. clear n Hn.
  intros m. revert a. induction m as [|m IH]; intros a.
  - rewrite seqZ_nil by lia. constructor.
  - rewrite seqZ_cons by lia. constructor.
    + replace (Z.pred (Z.of_nat (S m))) with (Z.of_nat m) by lia. apply IH.
    + replace (Z.pred (Z.of_nat (S m))) with (Z.of_nat m) by lia.
      destruct m as [|m]; [rewrite seqZ_nil by lia; constructor|].
      rewrite seqZ_cons by lia. constructor. lia.
Qed.

Lemma sorted_set_range (a b : Z) : sorted_set (range a b) = range a b.
Proof.
  apply sorted_set_unique; [apply Sorted_seqZ | apply NoDup_seqZ | done].
Qed.

Lemma sorted_set_singleton (x : Z) : sorted_set [x] = [x].
Proof.
  apply sorted_set_unique; [repeat constructor | | done].
  apply NoDup_singleton.
Qed.

Lemma range_nonempty (a b : Z) : a < b → range a b ≠ [].
Proof. intros Hab. unfold range. rewrite seqZ_cons by lia. discriminate. Qed.

(** ** The loop invariant: every wanted index is a page of the document *)

Section invariant.
Context `{UnicodeData}.

Lemma _parse_one_token_range tok P idx :
  1 ≤ P → _parse_one_token tok P = Ok idx → idx = -2 ∨ 0 ≤ idx < P.
Proof.
  intros HP. unfold _parse_one_token.
  case_bool_decide; [intros [= <-]; by left|].
  case_bool_decide; [intros [= <-]; right; lia|].
  destruct (startswith _ _).
  - destruct (last_offset _ _) as [off|]; [|done]. unfold mbind, result_bind.
    case_bool_decide; [|done]. intros [= <-]. by right.
  - destruct (isdigit _); [|done]. destruct (int_ _) as [p|]; [|done].
    case_bool_decide; [|done]. intros [= <-]. right. lia.
Qed.

Lemma _parse_endpoint_range val P a :
  _parse_endpoint val P = Ok a → 1 ≤ a ≤ P ∨ a = P.
Proof.
  unfold _parse_endpoint.
  case_bool_decide; [intros [= <-]; by right|].
  destruct (startswith _ _).
  - destruct (last_offset _ _) as [off|]; [|done]. unfold mbind, result_bind.
    case_bool_decide; [|done]. intros [= <-]. by left.
  - destruct (isdigit _); [|done]. destruct (int_ _) as [p|]; [|done].
    case_bool_decide; [|done]. intros [= <-]. by left.
Qed.

Lemma loop_body_invariant P wanted any_tok raw wanted' any_tok' :
  1 ≤ P →
  Forall (λ i, 0 ≤ i ≤ P - 1) wanted →
  loop_body P (wanted, any_tok) raw = Ok (wanted', any_tok') →
  Forall (λ i, 0 ≤ i ≤ P - 1) wanted'.
Proof.
  intros HP Hw. unfold loop_body.
  case_bool_decide; [by intros [= <- <-]|].
  destruct (fullmatch _SINGLE_RE _) as [m|].
  - destruct (_parse_one_token _ _) as [idx|] eqn:Hidx; [|done].
    apply _parse_one_token_range in Hidx as Hr; [|done].
    unfold mbind, result_bind.
    case_bool_decide; intros [= <- <-]; apply Forall_app; split; auto.
    + apply Forall_seqZ. lia.
    + apply Forall_singleton. lia.
  - destruct (fullmatch _RANGE_RE _) as [m|]; [|done].
    destruct (_parse_endpoint (group m 1) _) as [a|] eqn:Ha; [|done].
    destruct (_parse_endpoint (group m 2) _) as [b|] eqn:Hb; [|done].
    apply _parse_endpoint_range in Ha, Hb. unfold mbind, result_bind.
    case_bool_decide; intros [= <- <-]; apply Forall_app; split; auto;
      apply Forall_seqZ; lia.
Qed.

Lemma for_loop_invariant P segs wanted any_tok wanted' any_tok' :
  1 ≤ P →
  Forall (λ i, 0 ≤ i ≤ P - 1) wanted →
  for_loop P (wanted, any_tok) segs = Ok (wanted', any_tok') →
  Forall (λ i, 0 ≤ i ≤ P - 1) wanted'.
Proof.
  intros HP. revert wanted any_tok.
  induction segs as [|raw segs IH]; intros wanted any_tok Hw; cbn [for_loop].
  - by intros [= <- <-].
  - destruct (loop_body _ _ _) as [[w a]|] eqn:Hb; [|done].
    unfold mbind, result_bind. apply IH. eapply loop_body_invariant; eauto.
Qed.

Lemma parse_pages_arg_list pages_arg P res :
  1 ≤ P → parse_pages_arg pages_arg P = Ok (Some res) →
  StronglySorted Z.lt res ∧ NoDup res ∧ res ≠ [] ∧
  Forall (λ i, 0 ≤ i ≤ P - 1) res.
Proof.
  intros HP. unfold parse_pages_arg.
  destruct pages_arg as [[|c s]|]; try done.
  destruct (for_loop _ _ _) as [[wanted any_tok]|] eqn:Hl; [|done].
  unfold mbind, result_bind. destruct any_tok; [|done]. unfold negb.
  case_bool_decide as Hne; [done|]. intros [= <-].
  apply for_loop_invariant in Hl; [|done|constructor].
  split_and!; [| apply NoDup_sorted_set | done |].
  - apply strictly_sorted; [apply Sorted_sorted_set | apply NoDup_sorted_set].
  - apply Forall_forall. intros x Hx. rewrite elem_of_sorted_set in Hx.
    by apply (proj1 (Forall_forall _ _) Hl).
Qed.
End invariant.

(** ** Token texts: digits, [-] and lower-case letters *)

Ltac char_facts :=
  unfold token_char, ascii_digit, is_ascii, _DASHES, Py_UNICODE_ISSPACE in *;
  repeat match goal with
  | H : _ = true |- _ =>
      rewrite ?orb_true_iff, ?andb_true_iff, ?N.leb_le, ?N.eqb_eq, ?N.ltb_lt in H
  end.

Lemma token_char_space c : token_char c = true → Py_UNICODE_ISSPACE c = false.
Proof.
  intros Hc. apply not_true_is_false. intros Hs. char_facts. lia.
Qed.

Lemma token_char_ascii c : token_char c = true → is_ascii c = true.
Proof. intros Hc. char_facts. apply N.ltb_lt. lia. Qed.

Lemma token_char_lower c :
  token_char c = true → ((65 <=? c) && (c <=? 90))%N = false.
Proof.
  intros Hc. apply not_true_is_false. intros Hs. char_facts. lia.
Qed.

Lemma token_char_dash c : token_char c = true → _DASHES c = c.
Proof.
  intros Hc. unfold _DASHES. case_match eqn:Hd; [|done]. char_facts. lia.
Qed.

Lemma token_char_comma c : token_char c = true → c ≠ 44%N.
Proof. intros Hc ->. discriminate. Qed.

Lemma ascii_digit_token_char c : ascii_digit c = true → token_char c = true.
Proof. unfold token_char. by intros ->. Qed.

Section plain.
Context `{UnicodeData}.
Implicit Types s tok : str.

Lemma plain_translate s :
  Forall (λ c, token_char c = true) s → translate _DASHES s = s.
Proof.
  unfold translate. induction 1 as [|c s Hc _ IH]; [done|].
  simpl. by rewrite token_char_dash, IH.
Qed.

Lemma plain_split s :
  Forall (λ c, token_char c = true) s → split 44%N s = [s].
Proof.
  induction 1 as [|c s Hc _ IH]; [done|]. cbn [split].
  rewrite bool_decide_eq_false_2 by by apply token_char_comma.
  by rewrite IH.
Qed.

Lemma plain_lstrip s :
  Forall (λ c, token_char c = true) s → lstrip s = s.
Proof.
  destruct 1 as [|c s Hc _]; [done|]. simpl.
  by rewrite token_char_space.
Qed.

Lemma plain_strip s :
  Forall (λ c, token_char c = true) s → strip s = s.
Proof.
  intros Hs. unfold strip, rstrip. rewrite (plain_lstrip s) by done.
  rewrite plain_lstrip by by apply Forall_reverse.
  apply reverse_involutive.
Qed.

Lemma plain_lower s :
  Forall (λ c, token_char c = true) s → lower s = s.
Proof.
  intros Hs. unfold lower.
  assert (forallb is_ascii s = true) as ->.
  { induction Hs as [|c s Hc _ IH]; [done|]. simpl.
    by rewrite token_char_ascii, IH. }
  induction Hs as [|c s Hc _ IH]; [done|]. cbn [map].
  by rewrite token_char_lower, IH.
Qed.
End plain.

(** ** Numerals *)

Lemma digit_char_digit d : 0 ≤ d ≤ 9 → ascii_digit (digit_char d) = true.
Proof.
  intros Hd. unfold ascii_digit, digit_char.
  apply andb_true_iff. rewrite !N.leb_le. lia.
Qed.

Lemma numeral_digits_of fuel n :
  0 ≤ n → (Z.to_nat n < fuel)%nat → numeral (digits_of fuel n).
Proof.
  revert n. induction fuel as [|fuel IH]; intros n Hn Hf; [lia|].
  cbn [digits_of]. case_bool_decide as Hlt.
  - split; [done|]. apply Forall_singleton, digit_char_digit. lia.
  - destruct (IH (n / 10)) as [Hne Hall].
    + apply Z.div_pos; lia.
    + assert (n / 10 < n) by (apply Z.div_lt; lia). lia.
    + split; [by destruct (digits_of fuel (n / 10))|].
      apply Forall_app. split; [done|].
      apply Forall_singleton, digit_char_digit.
      pose proof (Z.mod_pos_bound n 10). lia.
Qed.

Lemma numeral_str_of_Z n : 0 ≤ n → numeral (str_of_Z n).
Proof.
  intros Hn. unfold str_of_Z. rewrite bool_decide_eq_false_2 by lia.
  apply numeral_digits_of; lia.
Qed.

Lemma numeral_plain ds : numeral ds → plain ds.
Proof.
  intros [Hne Hall]. split; [done|].
  eapply Forall_impl; [exact Hall|]. apply ascii_digit_token_char.
Qed.

Lemma numeral_cons ds : numeral ds → ∃ c ds', ds = c :: ds' ∧ ascii_digit c = true.
Proof.
  intros [Hne Hall]. destruct Hall as [|c ds' Hc _]; [done|]. eauto.
Qed.

Section numerals.
Context `{UnicodeData}.

Lemma ascii_digit_decimal c :
  ascii_digit c = true → Py_UNICODE_TODECIMAL c = Some (Z.of_N c - 48).
Proof.
  intros Hc. unfold Py_UNICODE_TODECIMAL. rewrite Hc.
  by rewrite token_char_ascii by by apply ascii_digit_token_char.
Qed.

Lemma ascii_digit_isdecimal c :
  ascii_digit c = true → Py_UNICODE_ISDECIMAL c = true.
Proof.
  intros Hc. unfold Py_UNICODE_ISDECIMAL. rewrite ascii_digit_decimal by done.
  apply bool_decide_eq_true_2. eauto.
Qed.


Lemma ascii_digit_isdigit c :
  ascii_digit c = true → Py_UNICODE_ISDIGIT c = true.
Proof.
  intros Hc. unfold Py_UNICODE_ISDIGIT.
  by rewrite token_char_ascii by by apply ascii_digit_token_char.
Qed.

Lemma numeral_isdigit ds : numeral ds → isdigit ds = true.
Proof.
  intros [Hne Hall]. unfold isdigit.
  rewrite bool_decide_eq_true_2 by done. simpl.
  induction Hall as [|c ds Hc _ IH]; [done|]. simpl.
  rewrite ascii_digit_isdigit by done.
  destruct ds; [done|]. by apply IH.
Qed.

Lemma int_digits_of fuel n :
  0 ≤ n → (Z.to_nat n < fuel)%nat →
  foldl (λ acc c, k ← acc; d ← Py_UNICODE_TODECIMAL c; Some (10 * k + d))
        (Some 0) (digits_of fuel n) = Some n.
Proof.
  revert n. induction fuel as [|fuel IH]; intros n Hn Hf; [lia|].
  cbn [digits_of]. case_bool_decide as Hlt.
  - cbn [foldl]. rewrite ascii_digit_decimal by (apply digit_char_digit; lia).
    simpl. f_equal. unfold digit_char. lia.
  - rewrite foldl_app, IH.
    + cbn [foldl].
      rewrite ascii_digit_decimal
        by (apply digit_char_digit; pose proof (Z.mod_pos_bound n 10); lia).
      simpl. f_equal. unfold digit_char.
      pose proof (Z.mod_pos_bound n 10). pose proof (Z.div_mod n 10). lia.
    + apply Z.div_pos; lia.
    + assert (n / 10 < n) by (apply Z.div_lt; lia). lia.
Qed.

Lemma int_str_of_Z n : 0 ≤ n → int_ (str_of_Z n) = Some n.
Proof.
  intros Hn. unfold int_.
  destruct (numeral_str_of_Z n Hn) as [Hne _].
  destruct (str_of_Z n) eqn:Hs; [done|]. rewrite <- Hs.
  unfold str_of_Z. rewrite bool_decide_eq_false_2 by lia.
  apply int_digits_of; lia.
Qed.
End numerals.

(** ** The backtracking matcher: first matches *)

Ltac py_norm :=
  repeat match goal with
  | |- context [py ?s] =>
      let v := eval vm_compute in (py s) in change (py s) with v
  end;
  cbn [app].

Lemma startswith_app p r : startswith p (p ++ r) = true.
Proof.
  induction p as [|c p IH]; [by destruct r|].
  simpl. by rewrite bool_decide_eq_true_2, IH.
Qed.

Lemma startswith_spec p s :
  startswith p s = true → s = p ++ drop (length p) s.
Proof.
  revert s. induction p as [|c p IH]; intros [|d s]; simpl; try done.
  intros [Hc Hp]%andb_true_iff. apply bool_decide_eq_true_1 in Hc as ->.
  f_equal. by apply IH.
Qed.

Lemma runs_first (p : char → bool) ds r :
  Forall (λ c, p c = true) ds → no_start p r →
  head (runs p (ds ++ r)) = Some (length ds).
Proof.
  intros Hds Hr. induction Hds as [|c ds Hc _ IH]; simpl.
  - destruct r as [|c r]; [done|]. simpl in *. by rewrite Hr.
  - rewrite Hc. destruct (runs p (ds ++ r)); simplify_eq/=. done.
Qed.

Lemma runs_spec (p : char → bool) s n :
  n ∈ runs p s → (n ≤ length s)%nat ∧ Forall (λ c, p c = true) (take n s).
Proof.
  revert n. induction s as [|c s IH]; intros n; simpl.
  - intros ->%list_elem_of_singleton. by split.
  - destruct (p c) eqn:Hc.
    + rewrite elem_of_app, list_elem_of_fmap, list_elem_of_singleton.
      intros [(m & -> & Hm)| ->]; [|split; [lia|constructor]].
      destruct (IH m Hm). split; [lia|]. by constructor.
    + intros ->%list_elem_of_singleton. split; [lia|constructor].
Qed.

Section first.
Context `{UnicodeData}.
Implicit Types (st : mstate) (r : regex) (g : list (nat * str)).

Lemma rmatch_seq r1 r2 st :
  rmatch (r1 ⋅ r2) st = flat_map (rmatch r2) (rmatch r1 st).
Proof. done. Qed.

Lemma rmatch_lit s st :
  rmatch (Lit s) st
  = if startswith s (rest st) then [advance (length s) st] else [].
Proof. done. Qed.

Lemma first_seq r1 r2 st m st' :
  head (rmatch r1 st) = Some m → head (rmatch r2 m) = Some st' →
  head (rmatch (r1 ⋅ r2) st) = Some st'.
Proof.
  cbn [rmatch]. intros [l ->]%head_Some [l' H2]%head_Some.
  simpl. by rewrite H2.
Qed.

Lemma first_alt_l r1 r2 st st' :
  head (rmatch r1 st) = Some st' → head (rmatch (Alt r1 r2) st) = Some st'.
Proof. cbn [rmatch]. by intros [l ->]%head_Some. Qed.

Lemma first_alt_r r1 r2 st :
  rmatch r1 st = [] → rmatch (Alt r1 r2) st = rmatch r2 st.
Proof. cbn [rmatch]. by intros ->. Qed.

Lemma first_opt r st st' :
  head (rmatch r st) = Some st' → head (rmatch (Opt r) st) = Some st'.
Proof. cbn [rmatch]. by intros [l ->]%head_Some. Qed.

Lemma first_opt_skip r st :
  rmatch r st = [] → head (rmatch (Opt r) st) = Some st.
Proof. cbn [rmatch]. by intros ->. Qed.

Lemma first_grp n r st st' :
  head (rmatch r st) = Some st' →
  head (rmatch (Grp n r) st) = Some (set_group n st st').
Proof. cbn [rmatch]. by intros [l ->]%head_Some. Qed.

Lemma first_lit s p rs g :
  head (rmatch (Lit s) (MState p (s ++ rs) g))
  = Some (MState (p + length s) rs g).
Proof.
  cbn [rmatch rest]. rewrite startswith_app. unfold advance. simpl.
  by rewrite drop_app_length.
Qed.

Lemma lit_fail s st : startswith s (rest st) = false → rmatch (Lit s) st = [].
Proof. cbn [rmatch]. by intros ->. Qed.

Lemma first_star k ds p rs g :
  Forall (λ c, in_class k c = true) ds → no_start (in_class k) rs →
  head (rmatch (Star k) (MState p (ds ++ rs) g))
  = Some (MState (p + length ds) rs g).
Proof.
  intros Hds Hr. cbn [rmatch rest].
  pose proof (runs_first _ _ _ Hds Hr) as [l ->]%head_Some.
  unfold advance. simpl. by rewrite drop_app_length.
Qed.

Lemma first_star_skip k p rs g :
  no_start (in_class k) rs →
  head (rmatch (Star k) (MState p rs g)) = Some (MState p rs g).
Proof.
  intros Hr. pose proof (first_star k [] p rs g (Forall_nil_2 _) Hr) as Hs.
  cbn [app length] in Hs. by rewrite Nat.add_0_r in Hs.
Qed.

Lemma first_plus k ds p rs g :
  ds ≠ [] → Forall (λ c, in_class k c = true) ds → no_start (in_class k) rs →
  head (rmatch (Plus k) (MState p (ds ++ rs) g))
  = Some (MState (p + length ds) rs g).
Proof.
  intros Hne Hds Hr. cbn [rmatch rest].
  pose proof (runs_first _ _ _ Hds Hr) as [l ->]%head_Some.
  rewrite filter_cons_True by by destruct ds.
  unfold advance. simpl. by rewrite drop_app_length.
Qed.

Lemma plus_fail k st : no_start (in_class k) (rest st) → rmatch (Plus k) st = [].
Proof.
  intros Hr. cbn [rmatch]. destruct (rest st) as [|c rs]; cbn [runs]; [done|].
  cbn [no_start] in Hr. by rewrite Hr.
Qed.

Lemma first_eol p g : head (rmatch Eol (MState p [] g)) = Some (MState p [] g).
Proof. done. Qed.

Lemma first_bol rs g : head (rmatch Bol (MState 0 rs g)) = Some (MState 0 rs g).
Proof. done. Qed.

Lemma fullmatch_first r s p g :
  head (rmatch r (MState 0 s [])) = Some (MState p [] g) →
  fullmatch r s = Some g.
Proof.
  intros [l Hl]%head_Some. unfold fullmatch. rewrite Hl.
  by rewrite filter_cons_True.
Qed.
End first.

(** ** First matches of endpoints *)

Lemma plain_no_space s r : plain s → no_start Py_UNICODE_ISSPACE (s ++ r).
Proof.
  intros [Hne Hall]. destruct Hall as [|c s Hc _]; [done|].
  simpl. by apply token_char_space.
Qed.

Lemma str_of_Z_plain n : 0 ≤ n → plain (str_of_Z n).
Proof. intros Hn. by apply numeral_plain, numeral_str_of_Z. Qed.

Lemma endpoint_text_plain e : unsigned e → plain (endpoint_text e).
Proof.
  destruct e as [n| |k]; cbn [unsigned endpoint_text]; intros He.
  - by apply str_of_Z_plain.
  - split; [done|]. py_norm. by repeat constructor.
  - destruct (str_of_Z_plain k He) as [_ Hk]. split; [by py_norm|].
    apply Forall_app. split; [py_norm; by repeat constructor | done].
Qed.

Section endpoints.
Context `{UnicodeData}.
Implicit Types (rs ds : str) (g : list (nat * str)).

Lemma numeral_decimal ds :
  numeral ds → Forall (λ c, in_class cls_digit c = true) ds.
Proof.
  intros [_ Hall]. eapply Forall_impl; [exact Hall|].
  intros c Hc. by apply ascii_digit_isdecimal.
Qed.

Lemma first_numeral ds p rs g :
  numeral ds → no_start Py_UNICODE_ISDECIMAL rs →
  head (rmatch (Plus cls_digit) (MState p (ds ++ rs) g))
  = Some (MState (p + length ds) rs g).
Proof.
  intros Hds Hrs. apply first_plus; [apply Hds | by apply numeral_decimal | done].
Qed.

Lemma last_re_fail c rs p g :
  c ≠ 108%N → rmatch last_re (MState p (c :: rs) g) = [].
Proof.
  intros Hc. unfold last_re. cbn [rmatch rest]. py_norm. cbn [startswith].
  by rewrite bool_decide_eq_false_2.
Qed.

Lemma offset_fail rs p g :
  no_offset rs → rmatch (Lit (py "-") ⋅ Plus cls_digit) (MState p rs g) = [].
Proof.
  intros Hrs. rewrite rmatch_seq, rmatch_lit. py_norm.
  destruct rs as [|c rs]; [done|]. cbn [rest startswith].
  case_bool_decide as Hc; [|done]. subst c. cbn [andb flat_map].
  rewrite plus_fail; [done|]. by apply Hrs.
Qed.

Lemma first_last_re rs p g :
  no_offset rs →
  head (rmatch last_re (MState p (py "last" ++ rs) g))
  = Some (MState (p + 4) rs g).
Proof.
  intros Hrs. unfold last_re. eapply first_seq; [apply first_lit|].
  apply first_opt_skip. by apply offset_fail.
Qed.

Lemma first_last_re_minus ds rs p g :
  numeral ds → no_start Py_UNICODE_ISDECIMAL rs →
  head (rmatch last_re (MState p (py "last-" ++ ds ++ rs) g))
  = Some (MState (p + length (py "last-" ++ ds)) rs g).
Proof.
  intros Hds Hrs. unfold last_re.
  change (py "last-" ++ ds ++ rs) with (py "last" ++ py "-" ++ ds ++ rs).
  eapply first_seq; [apply first_lit|].
  apply first_opt. eapply first_seq; [apply first_lit|].
  rewrite first_numeral by done. do 2 f_equal.
  rewrite length_app. simpl. lia.
Qed.

(** [last(?:-\d+)?|\d+], the endpoint of [_RANGE_RE]. *)
Lemma first_endpoint e rs p g :
  unsigned e → follows e rs →
  head (rmatch (Alt last_re (Plus cls_digit))
               (MState p (endpoint_text e ++ rs) g))
  = Some (MState (p + length (endpoint_text e)) rs g).
Proof.
  destruct e as [n| |k]; cbn [unsigned follows endpoint_text]; intros He Hrs.
  - destruct (numeral_cons _ (numeral_str_of_Z n He)) as (c & ds & Hn & Hc).
    rewrite first_alt_r.
    + apply first_numeral; [by apply numeral_str_of_Z | done].
    + rewrite Hn. apply last_re_fail. intros ->. discriminate.
  - apply first_alt_l. by apply first_last_re.
  - apply first_alt_l. rewrite <- (assoc_L (++)).
    apply first_last_re_minus; [by apply numeral_str_of_Z | done].
Qed.

(** [last(?:-\d+)?|\d+|all], the token of [_SINGLE_RE]. *)
Lemma first_single e rs p g :
  unsigned e → follows e rs →
  head (rmatch (Alt last_re (Alt (Plus cls_digit) (Lit (py "all"))))
               (MState p (endpoint_text e ++ rs) g))
  = Some (MState (p + length (endpoint_text e)) rs g).
Proof.
  destruct e as [n| |k]; cbn [unsigned follows endpoint_text]; intros He Hrs.
  - destruct (numeral_cons _ (numeral_str_of_Z n He)) as (c & ds & Hn & Hc).
    rewrite first_alt_r.
    + apply first_alt_l.
      apply first_numeral; [by apply numeral_str_of_Z | done].
    + rewrite Hn. apply last_re_fail. intros ->. discriminate.
  - apply first_alt_l. by apply first_last_re.
  - apply first_alt_l. rewrite <- (assoc_L (++)).
    apply first_last_re_minus; [by apply numeral_str_of_Z | done].
Qed.

Lemma fullmatch_single_endpoint e :
  unsigned e → is_Some (fullmatch _SINGLE_RE (endpoint_text e)).
Proof.
  intros He. unfold _SINGLE_RE.
  pose proof (endpoint_text_plain e He) as Hp.
  rewrite <- (app_nil_r (endpoint_text e)).
  eexists. eapply fullmatch_first.
  eapply first_seq; [apply first_bol|].
  eapply first_seq; [apply first_star_skip, plain_no_space, Hp|].
  eapply first_seq; [apply first_grp, first_single; [done|by destruct e]|].
  eapply first_seq; [by apply first_star_skip|].
  apply first_eol.
Qed.

Lemma follows_dash e1 e2 rs :
  unsigned e2 → ¬ reads_as_single e1 e2 →
  follows e1 (py "-" ++ endpoint_text e2 ++ rs).
Proof.
  intros He2 Hns. destruct e1 as [n| |k]; cbn [follows]; try done.
  py_norm. intros _.
  destruct e2 as [n| |k]; cbn [endpoint_text reads_as_single] in *; done.
Qed.

Lemma fullmatch_range_endpoints e1 e2 :
  unsigned e1 → unsigned e2 → ¬ reads_as_single e1 e2 →
  ∃ m, fullmatch _RANGE_RE (range_text e1 e2) = Some m ∧
       group m 1 = endpoint_text e1 ∧ group m 2 = endpoint_text e2.
Proof.
  intros He1 He2 Hns. unfold _RANGE_RE, range_text.
  pose proof (endpoint_text_plain e1 He1) as Hp1.
  pose proof (endpoint_text_plain e2 He2) as Hp2.
  rewrite <- (app_nil_r (endpoint_text e2)).
  eexists. split.
  - eapply fullmatch_first.
    eapply first_seq; [apply first_bol|].
    eapply first_seq; [apply first_star_skip, plain_no_space, Hp1|].
    eapply first_seq;
      [apply first_grp, first_endpoint; [done|by apply follows_dash]|].
    eapply first_seq; [by apply first_star_skip|].
    eapply first_seq; [apply first_lit|].
    eapply first_seq; [apply first_star_skip, plain_no_space, Hp2|].
    eapply first_seq;
      [apply first_grp, first_endpoint; [done|by destruct e2]|].
    eapply first_seq; [by apply first_star_skip|].
    apply first_eol.
  - unfold group, set_group. simpl. split.
    + apply take_app_length'. lia.
    + rewrite app_nil_r. apply take_ge. lia.
Qed.
End endpoints.

(** ** What a pattern can consume *)

Section shapes.
Context `{UnicodeData}.
Implicit Types (st : mstate) (r : regex) (w : str).

Lemma rmatch_shape r st st' :
  st' ∈ rmatch r st → ∃ w, rest st = w ++ rest st' ∧ shape r w.
Proof.
  revert st st'.
  induction r as [| |s|k|k|r IH|r1 IH1 r2 IH2|r1 IH1 r2 IH2|n r IH];
    intros st st'; cbn [rmatch shape].
  - case_bool_decide; [|by intros ?%elem_of_nil].
    intros ->%list_elem_of_singleton. by exists [].
  - case_bool_decide; [|by intros ?%elem_of_nil].
    intros ->%list_elem_of_singleton. by exists [].
  - destruct (startswith s (rest st)) eqn:Hs; [|by intros ?%elem_of_nil].
    intros ->%list_elem_of_singleton. exists s. split; [|done].
    by apply startswith_spec.
  - intros (n & -> & Hn)%list_elem_of_fmap.
    apply runs_spec in Hn as [_ Hn]. exists (take n (rest st)).
    split; [|done]. cbn [advance rest]. by rewrite take_drop.
  - intros (n & -> & [Hn0 Hn]%list_elem_of_filter)%list_elem_of_fmap.
    apply runs_spec in Hn as [Hle Hn]. exists (take n (rest st)).
    split; [cbn [advance rest]; by rewrite take_drop|].
    split; [|done]. destruct (rest st); [simpl in Hle; lia|].
    by destruct n.
  - intros [Hr| ->%list_elem_of_singleton]%elem_of_app.
    + destruct (IH _ _ Hr) as (w & Hw & Hs). eauto.
    + exists []. eauto.
  - intros (m & Hm & Hst)%list_elem_of_In%in_flat_map.
    apply list_elem_of_In in Hm, Hst.
    destruct (IH1 _ _ Hm) as (w1 & Hw1 & Hs1).
    destruct (IH2 _ _ Hst) as (w2 & Hw2 & Hs2).
    exists (w1 ++ w2). split; [by rewrite Hw1, Hw2, (assoc_L (++))|].
    eauto.
  - intros [Hr|Hr]%elem_of_app.
    + destruct (IH1 _ _ Hr) as (w & Hw & Hs). eauto.
    + destruct (IH2 _ _ Hr) as (w & Hw & Hs). eauto.
  - intros (m & -> & Hm)%list_elem_of_fmap.
    destruct (IH _ _ Hm) as (w & Hw & Hs). eauto.
Qed.

Lemma fullmatch_shape r s m : fullmatch r s = Some m → shape r s.
Proof.
  unfold fullmatch. intros (st & Hst & _)%fmap_Some.
  apply head_Some_elem_of, list_elem_of_filter in Hst as [Hrest Hst].
  apply rmatch_shape in Hst as (w & Hw & Hs). cbn [rest] in Hw.
  by rewrite Hw, Hrest, app_nil_r.
Qed.

Lemma dashes_app w1 w2 : dashes (w1 ++ w2) = (dashes w1 + dashes w2)%nat.
Proof. unfold dashes. by rewrite filter_app, length_app. Qed.

Lemma dashes_class k w :
  Forall (λ c, in_class k c = true) w → dashes w = O.
Proof.
  unfold dashes. induction 1 as [|c w Hc _ IH]; [done|].
  rewrite filter_cons_False; [done|]. intros ->. by destruct k.
Qed.

Lemma dashes_last_re w : shape last_re w → (dashes w ≤ 1)%nat.
Proof.
  unfold last_re. cbn [shape].
  intros (w1 & w2 & -> & -> & [(w3 & w4 & -> & -> & _ & Hd)| ->]).
  - rewrite !dashes_app, (dashes_class cls_digit w4) by done.
    vm_compute. lia.
  - vm_compute. lia.
Qed.

Lemma last_re_start w : shape last_re w → ∃ w', w = 108%N :: w'.
Proof.
  unfold last_re. cbn [shape]. intros (w1 & w2 & -> & -> & _).
  py_norm. eauto.
Qed.

Lemma single_dashes w : shape _SINGLE_RE w → (dashes w ≤ 1)%nat.
Proof.
  unfold _SINGLE_RE. cbn [shape].
  intros (? & ? & -> & -> & w1 & ? & -> & Hs1 & w2 & ? & -> & Hb
          & w3 & ? & -> & Hs2 & ->).
  rewrite !dashes_app, (dashes_class _ _ Hs1), (dashes_class _ _ Hs2).
  change (dashes []) with O.
  destruct Hb as [Hb|[[_ Hb]| ->]].
  - apply dashes_last_re in Hb. lia.
  - rewrite (dashes_class _ _ Hb). lia.
  - vm_compute. lia.
Qed.

Lemma single_digit_start c w :
  ascii_digit c = true → shape _SINGLE_RE (c :: w) → dashes (c :: w) = O.
Proof.
  intros Hc. unfold _SINGLE_RE. cbn [shape].
  intros (? & ? & Hw & -> & w1 & ? & -> & Hs1 & w2 & ? & -> & Hb
          & w3 & ? & -> & Hs2 & ->).
  rewrite app_nil_l, app_nil_r in Hw.
  destruct Hs1 as [|d w1 Hd _].
  2:{ simplify_eq/=. pose proof (token_char_space _ (ascii_digit_token_char _ Hc)).
      congruence. }
  rewrite app_nil_l in Hw. rewrite Hw, dashes_app, (dashes_class _ _ Hs2).
  destruct Hb as [Hb|[[_ Hb]| ->]].
  - apply last_re_start in Hb as (w' & ->). by simplify_eq/=.
  - rewrite (dashes_class _ _ Hb). lia.
  - revert Hw. py_norm. intros [= -> _]. discriminate.
Qed.

Lemma dashes_numeral ds : numeral ds → dashes ds = O.
Proof. intros Hds. by apply (dashes_class cls_digit), numeral_decimal. Qed.

(** A range text is never read as a single token, [last-N] apart. *)
Lemma fullmatch_single_range e1 e2 :
  unsigned e1 → unsigned e2 → ¬ reads_as_single e1 e2 →
  fullmatch _SINGLE_RE (range_text e1 e2) = None.
Proof.
  intros He1 He2 Hns.
  destruct (fullmatch _ _) as [m|] eqn:Hm; [exfalso|done].
  destruct e1 as [n| |k]; cbn [unsigned] in He1.
  - apply fullmatch_shape in Hm. unfold range_text in Hm.
    cbn [endpoint_text] in Hm.
    assert (1 ≤ dashes (str_of_Z n ++ py "-" ++ endpoint_text e2))%nat as Hd.
    { rewrite !dashes_app. change (dashes (py "-")) with 1%nat. lia. }
    destruct (numeral_cons _ (numeral_str_of_Z n He1)) as (c & ds & Hn & Hc).
    rewrite Hn in Hm, Hd. cbn [app] in Hm, Hd.
    apply (single_digit_start c) in Hm; [lia|done].
  - revert Hm. unfold range_text.
    destruct e2 as [n| |k]; cbn [endpoint_text reads_as_single] in *; [done| |].
    + by vm_compute.
    + generalize (str_of_Z k). intros x. by vm_compute.
  - apply fullmatch_shape, single_dashes in Hm. revert Hm.
    unfold range_text. cbn [endpoint_text]. rewrite !dashes_app.
    change (dashes (py "-")) with 1%nat.
    change (dashes (py "last-")) with 1%nat. lia.
Qed.
End shapes.

(** ** Tokens and endpoints on their texts *)

Section tokens.
Context `{UnicodeData}.
Implicit Types (tok : str) (P n k : Z) (e : endpoint).

Lemma lower_strip_plain tok : plain tok → lower (strip tok) = tok.
Proof. intros [_ Ht]. by rewrite plain_strip, plain_lower. Qed.

Lemma numeral_not_keyword ds :
  numeral ds →
  ds ≠ py "all" ∧ ds ≠ py "last" ∧ startswith (py "last-") ds = false.
Proof.
  intros (c & ds' & -> & Hc)%numeral_cons. py_norm.
  split_and!; try (intros [= -> _]; discriminate).
  cbn [startswith]. rewrite bool_decide_eq_false_2; [done|].
  intros <-. discriminate.
Qed.

Lemma split1_first sep pre s :
  sep ∉ pre → split1 sep (pre ++ sep :: s) = [pre; s].
Proof.
  induction pre as [|c pre IH]; intros Hsep; cbn [app split1].
  - by rewrite bool_decide_eq_true_2.
  - apply not_elem_of_cons in Hsep as [Hc Hpre].
    rewrite bool_decide_eq_false_2 by done. by rewrite IH.
Qed.

Lemma last_offset_text tok k :
  0 ≤ k → last_offset tok (py "last-" ++ str_of_Z k) = Ok k.
Proof.
  intros Hk. unfold last_offset.
  change (py "last-" ++ str_of_Z k) with (py "last" ++ 45%N :: str_of_Z k).
  rewrite split1_first
    by (py_norm; rewrite !not_elem_of_cons; split_and!;
        [done..|apply not_elem_of_nil]).
  cbn [lookup list_lookup].
  rewrite numeral_isdigit by by apply numeral_str_of_Z.
  by rewrite int_str_of_Z.
Qed.

Lemma _parse_one_token_page n P :
  0 ≤ n →
  _parse_one_token (str_of_Z n) P
  = if bool_decide (1 ≤ n ≤ P) then Ok (n - 1)
    else Raise (ValueError (Page_out_of_range (str_of_Z n))).
Proof.
  intros Hn. unfold _parse_one_token.
  rewrite lower_strip_plain by by apply str_of_Z_plain.
  destruct (numeral_not_keyword _ (numeral_str_of_Z n Hn)) as (H1 & H2 & ->).
  rewrite !bool_decide_eq_false_2 by done.
  rewrite numeral_isdigit by by apply numeral_str_of_Z.
  rewrite int_str_of_Z by done. by case_bool_decide.
Qed.

Lemma _parse_one_token_last_minus k P :
  0 ≤ k →
  _parse_one_token (py "last-" ++ str_of_Z k) P
  = if bool_decide (0 ≤ P - 1 - k < P) then Ok (P - 1 - k)
    else Raise (ValueError (Page_out_of_range (py "last-" ++ str_of_Z k))).
Proof.
  intros Hk. unfold _parse_one_token.
  rewrite lower_strip_plain by apply (endpoint_text_plain (ep_last_minus k) Hk).
  rewrite last_offset_text by done.
  rewrite !bool_decide_eq_false_2
    by (py_norm; discriminate
        || (intros [= E]; by destruct (numeral_str_of_Z k Hk))).
  rewrite startswith_app. unfold mbind, result_bind. by case_bool_decide.
Qed.

Lemma _parse_endpoint_text e P :
  1 ≤ P → endpoint_valid P e →
  _parse_endpoint (endpoint_text e) P = Ok (endpoint_page P e).
Proof.
  intros HP He. unfold _parse_endpoint.
  assert (unsigned e) as Hu by (destruct e; simpl in *; lia).
  rewrite lower_strip_plain by by apply endpoint_text_plain.
  destruct e as [n| |k]; cbn [endpoint_text endpoint_page endpoint_valid] in *.
  - destruct (numeral_not_keyword _ (numeral_str_of_Z n Hu)) as (H1 & H2 & ->).
    rewrite bool_decide_eq_false_2 by (by intros [|]).
    rewrite numeral_isdigit by by apply numeral_str_of_Z.
    rewrite int_str_of_Z by done. by rewrite bool_decide_eq_true_2.
  - by rewrite bool_decide_eq_true_2 by by right.
  - rewrite last_offset_text by done.
    rewrite bool_decide_eq_false_2.
    2:{ py_norm. intros [?|E]; [discriminate|]. injection E as E.
        by destruct (numeral_str_of_Z k Hu). }
    rewrite startswith_app. unfold mbind, result_bind.
    rewrite bool_decide_eq_true_2 by lia. done.
Qed.

(** A one-token expression runs the loop body once. *)
Lemma resolve_plain tok P :
  plain tok →
  resolve tok P
  = '(wanted, any_tok) ← loop_body P ([], false) tok;
    if negb any_tok then Raise (ValueError (Empty_after_parsing tok))
    else
      let res := sorted_set wanted in
      if bool_decide (res = []) then Raise (ValueError (No_valid_pages tok))
      else Ok (Some res).
Proof.
  intros [Hne Ht]. unfold resolve, parse_pages_arg.
  destruct tok as [|c tok]; [done|].
  rewrite plain_translate, plain_split by done. cbn [for_loop].
  by destruct (loop_body _ _ _) as [[??]|].
Qed.

Lemma resolve_single_index tok P idx :
  plain tok → is_Some (fullmatch _SINGLE_RE tok) →
  _parse_one_token tok P = Ok idx → idx ≠ -2 →
  resolve tok P = Ok (Some [idx]).
Proof.
  intros Ht [m Hm] Hidx Hne. rewrite resolve_plain by done.
  unfold loop_body. destruct Ht as [Hnil Ht].
  rewrite plain_strip, plain_lower, Hm, Hidx by done.
  rewrite bool_decide_eq_false_2 by done.
  unfold mbind, result_bind. rewrite bool_decide_eq_false_2 by done.
  cbn [app negb]. by rewrite sorted_set_singleton.
Qed.

Lemma resolve_single_all tok P :
  plain tok → is_Some (fullmatch _SINGLE_RE tok) →
  _parse_one_token tok P = Ok (-2) → 1 ≤ P →
  resolve tok P = Ok (Some (range 0 P)).
Proof.
  intros Ht [m Hm] Hidx HP. rewrite resolve_plain by done.
  unfold loop_body. destruct Ht as [Hnil Ht].
  rewrite plain_strip, plain_lower, Hm, Hidx by done.
  rewrite bool_decide_eq_false_2 by done.
  unfold mbind, result_bind. rewrite bool_decide_eq_true_2 by done.
  cbn [app negb]. rewrite sorted_set_range.
  by rewrite bool_decide_eq_false_2 by (apply range_nonempty; lia).
Qed.

Lemma resolve_single_raise tok P err :
  plain tok → is_Some (fullmatch _SINGLE_RE tok) →
  _parse_one_token tok P = Raise err →
  resolve tok P = Raise err.
Proof.
  intros Ht [m Hm] Hidx. rewrite resolve_plain by done.
  unfold loop_body. destruct Ht as [Hnil Ht].
  rewrite plain_strip, plain_lower, Hm, Hidx by done.
  by rewrite bool_decide_eq_false_2 by done.
Qed.

Lemma resolve_range_pages tok P m a b :
  plain tok → fullmatch _SINGLE_RE tok = None →
  fullmatch _RANGE_RE tok = Some m →
  _parse_endpoint (group m 1) P = Ok a →
  _parse_endpoint (group m 2) P = Ok b →
  1 ≤ a → 1 ≤ b →
  resolve tok P = Ok (Some (range (Z.min a b - 1) (Z.max a b))).
Proof.
  intros Ht Hs Hm Ha Hb Ha1 Hb1. rewrite resolve_plain by done.
  unfold loop_body. destruct Ht as [Hnil Ht].
  rewrite plain_strip, plain_lower, Hs, Hm, Ha, Hb by done.
  rewrite bool_decide_eq_false_2 by done.
  unfold mbind, result_bind.
  assert ((if bool_decide (a > b) then (b, a) else (a, b))
          = (Z.min a b, Z.max a b)) as ->.
  { case_bool_decide; f_equal; lia. }
  cbn [app negb]. rewrite sorted_set_range.
  by rewrite bool_decide_eq_false_2 by (apply range_nonempty; lia).
Qed.

Lemma resolve_invalid tok P :
  plain tok → fullmatch _SINGLE_RE tok = None →
  fullmatch _RANGE_RE tok = None →
  resolve tok P = Raise (ValueError (Invalid_token tok)).
Proof.
  intros Ht Hs Hm. rewrite resolve_plain by done.
  unfold loop_body. destruct Ht as [Hnil Ht].
  rewrite plain_strip, plain_lower, Hs, Hm by done.
  by rewrite bool_decide_eq_false_2 by done.
Qed.

(** The range [e1-e2] resolves to the pages between its two endpoints. *)
Lemma resolve_range_text e1 e2 P :
  1 ≤ P → endpoint_valid P e1 → endpoint_valid P e2 →
  ¬ reads_as_single e1 e2 →
  resolve (range_text e1 e2) P
  = Ok (Some (range (Z.min (endpoint_page P e1) (endpoint_page P e2) - 1)
                    (Z.max (endpoint_page P e1) (endpoint_page P e2)))).
Proof.
  intros HP He1 He2 Hns.
  assert (unsigned e1) as Hu1 by (destruct e1; simpl in *; lia).
  assert (unsigned e2) as Hu2 by (destruct e2; simpl in *; lia).
  destruct (fullmatch_range_endpoints e1 e2) as (m & Hm & Hg1 & Hg2); [done..|].
  apply (resolve_range_pages _ _ m).
  - destruct (endpoint_text_plain e1 Hu1) as [Hn1 Hp1].
    destruct (endpoint_text_plain e2 Hu2) as [Hn2 Hp2].
    split; [unfold range_text; by destruct (endpoint_text e1)|].
    unfold range_text. rewrite !Forall_app. split_and!; [done| |done].
    py_norm. by repeat constructor.
  - by apply fullmatch_single_range.
  - done.
  - rewrite Hg1. by apply _parse_endpoint_text.
  - rewrite Hg2. by apply _parse_endpoint_text.
  - destruct e1; simpl in *; lia.
  - destruct e2; simpl in *; lia.
Qed.
End tokens.

(** ** Python's [range] and the concrete token texts *)

Lemma range_lookup (a b : Z) (i : nat) :
  a + Z.of_nat i < b → range a b !! i = Some (a + Z.of_nat i).
Proof. intros Hi. unfold range. apply lookup_seqZ_lt. lia. Qed.

Lemma range_length (a b : Z) : length (range a b) = Z.to_nat (b - a).
Proof. apply length_seqZ. Qed.

Lemma range_singleton (a : Z) : range a (a + 1) = [a].
Proof.
  unfold range. replace (a + 1 - a) with 1 by lia.
  rewrite seqZ_cons by lia. by rewrite seqZ_nil by lia.
Qed.

Ltac plain_text := split; py_norm; [done | by repeat constructor].

Section texts.
Context `{UnicodeData}.

Lemma resolve_all P : 1 ≤ P → resolve (py "all") P = Ok (Some (range 0 P)).
Proof.
  intros HP. apply resolve_single_all; [plain_text | | done..].
  eexists. vm_compute. reflexivity.
Qed.

Lemma resolve_1_last P : 1 ≤ P → resolve (py "1-last") P = Ok (Some (range 0 P)).
Proof.
  intros HP. change (py "1-last") with (range_text (ep_page 1) ep_last).
  rewrite resolve_range_text; [|done|simpl; lia|done|tauto].
  cbn [endpoint_page]. by rewrite Z.min_l, Z.max_r by lia.
Qed.

Lemma resolve_last P : 1 ≤ P → resolve (py "last") P = Ok (Some [P - 1]).
Proof.
  intros HP. apply resolve_single_index; [plain_text | | done | lia].
  apply (fullmatch_single_endpoint ep_last I).
Qed.

Lemma resolve_page n P :
  1 ≤ n ≤ P → resolve (str_of_Z n) P = Ok (Some [n - 1]).
Proof.
  intros Hn. apply resolve_single_index; [apply str_of_Z_plain; lia | | | lia].
  - apply (fullmatch_single_endpoint (ep_page n)). simpl. lia.
  - rewrite _parse_one_token_page by lia. by rewrite bool_decide_eq_true_2.
Qed.

Lemma resolve_page_out_of_range n P :
  0 ≤ n → ¬ 1 ≤ n ≤ P →
  resolve (str_of_Z n) P
  = Raise (ValueError (Page_out_of_range (str_of_Z n))).
Proof.
  intros Hn Hout. apply resolve_single_raise; [by apply str_of_Z_plain | |].
  - by apply (fullmatch_single_endpoint (ep_page n)).
  - rewrite _parse_one_token_page by lia. by rewrite bool_decide_eq_false_2.
Qed.

Lemma resolve_last_minus k P :
  0 ≤ k ≤ P - 1 →
  resolve (py "last-" ++ str_of_Z k) P = Ok (Some [P - 1 - k]).
Proof.
  intros Hk. apply resolve_single_index; [| | | lia].
  - apply (endpoint_text_plain (ep_last_minus k)). simpl. lia.
  - apply (fullmatch_single_endpoint (ep_last_minus k)). simpl. lia.
  - rewrite _parse_one_token_last_minus by lia.
    by rewrite bool_decide_eq_true_2 by lia.
Qed.

Lemma resolve_last_minus_out_of_range k P :
  0 ≤ k → P - 1 < k →
  resolve (py "last-" ++ str_of_Z k) P
  = Raise (ValueError (Page_out_of_range (py "last-" ++ str_of_Z k))).
Proof.
  intros Hk Hout. apply resolve_single_raise.
  - by apply (endpoint_text_plain (ep_last_minus k)).
  - by apply (fullmatch_single_endpoint (ep_last_minus k)).
  - rewrite _parse_one_token_last_minus by lia.
    by rewrite bool_decide_eq_false_2 by lia.
Qed.
End texts.

(** * Specified properties *)

(** C1. Whenever [parse_pages_arg] returns a list for a document of at least
    one page, that list is strictly ascending, without duplicates, non-empty,
    and each of its elements lies in [0, P-1]; in particular the expression
    ["1-2,last-1,last"] on 10 pages gives [[0; 1; 8; 9]]. *)
Theorem parse_pages_arg_canonical `{UnicodeData} :
  (∀ pages_arg P res,
     1 ≤ P → parse_pages_arg pages_arg P = Ok (Some res) →
     StronglySorted Z.lt res ∧ NoDup res ∧ res ≠ [] ∧
     Forall (λ i, 0 ≤ i ≤ P - 1) res)
  ∧ resolve (py "1-2,last-1,last") 10 = Ok (Some [0; 1; 8; 9]).
Proof.
  split.
  - intros pages_arg P res. apply parse_pages_arg_list.
  - vm_compute. reflexivity.
Qed.

Lemma parse_pages_arg_canonical_witness :
  1 ≤ 10 ∧
  @parse_pages_arg ascii_only (Some (py "3,1-2,2")) 10 = Ok (Some [0; 1; 2]) ∧
  StronglySorted Z.lt [0; 1; 2] ∧ NoDup [0; 1; 2] ∧ [0; 1; 2] ≠ [] ∧
  Forall (λ i, 0 ≤ i ≤ 10 - 1) [0; 1; 2].
Proof.
  split; [lia|]. split; [vm_compute; reflexivity|].
  apply (proj1 (@parse_pages_arg_canonical ascii_only) (Some (py "3,1-2,2")) 10);
    [lia | vm_compute; reflexivity].
Defined.

(** C2. For every document of [P ≥ 1] pages, ["all"] and ["1-last"] both
    resolve to the full list [range(P)], that is [0, 1, ..., P-1]. *)
Theorem resolve_all_and_1_last `{UnicodeData} (P : Z) :
  1 ≤ P →
  resolve (py "all") P = Ok (Some (range 0 P)) ∧
  resolve (py "1-last") P = Ok (Some (range 0 P)).
Proof.
  intros HP. split; [by apply resolve_all | by apply resolve_1_last].
Qed.

Lemma resolve_all_and_1_last_witness :
  @resolve ascii_only (py "all") 3 = Ok (Some (range 0 3)) ∧
  @resolve ascii_only (py "1-last") 3 = Ok (Some (range 0 3)).
Proof. apply (@resolve_all_and_1_last ascii_only 3). lia. Defined.

(** C3. For every [P ≥ 1], ["last"], [str(P)] and ["last-0"] all resolve to
    the singleton [[P-1]]; and ["last-K"] resolves to [[P-1-K]] whenever
    [0 ≤ K ≤ P-1]. *)
Theorem resolve_last_forms `{UnicodeData} (P : Z) :
  1 ≤ P →
  resolve (py "last") P = Ok (Some [P - 1]) ∧
  resolve (str_of_Z P) P = Ok (Some [P - 1]) ∧
  resolve (py "last-0") P = Ok (Some [P - 1]) ∧
  ∀ K, 0 ≤ K ≤ P - 1 →
       resolve (py "last-" ++ str_of_Z K) P = Ok (Some [P - 1 - K]).
Proof.
  intros HP. split_and!.
  - by apply resolve_last.
  - apply resolve_page. lia.
  - change (py "last-0") with (py "last-" ++ str_of_Z 0).
    rewrite resolve_last_minus by lia. do 3 f_equal. lia.
  - intros K HK. by apply resolve_last_minus.
Qed.

Lemma resolve_last_forms_witness :
  @resolve ascii_only (py "last") 12 = Ok (Some [12 - 1]) ∧
  @resolve ascii_only (str_of_Z 12) 12 = Ok (Some [12 - 1]) ∧
  @resolve ascii_only (py "last-0") 12 = Ok (Some [12 - 1]) ∧
  @resolve ascii_only (py "last-" ++ str_of_Z 4) 12 = Ok (Some [12 - 1 - 4]).
Proof.
  destruct (@resolve_last_forms ascii_only 12) as (H1 & H2 & H3 & H4); [lia|].
  split_and!; [exact H1 | exact H2 | exact H3 | apply H4; lia].
Defined.

(** C4, as stated, fails: with the valid endpoints [5] and [last] on 10
    pages, ["5-last"] is the range of pages 5 to 10 while the swapped text
    ["last-5"] is the single token "five before the last page". *)
Lemma range_swap_last_counterexample :
  endpoint_valid 10 (ep_page 5) ∧ endpoint_valid 10 ep_last ∧
  @resolve ascii_only (range_text (ep_page 5) ep_last) 10
  = Ok (Some [4; 5; 6; 7; 8; 9]) ∧
  @resolve ascii_only (range_text ep_last (ep_page 5)) 10 = Ok (Some [4]) ∧
  @resolve ascii_only (range_text (ep_page 5) ep_last) 10
  ≠ @resolve ascii_only (range_text ep_last (ep_page 5)) 10.
Proof.
  split_and!; [simpl; lia | exact I | vm_compute; reflexivity..
              | vm_compute; discriminate].
Qed.

(** C4, amended. A range resolves to the pages between its two endpoints,
    whichever comes first: for valid endpoints [e1], [e2] the texts [e1-e2]
    and [e2-e1] resolve to the same list, provided neither text is [last-N],
    which is read as a single token ([last-N] is page [P-N], [N-last] the
    pages [N..P]). In particular ["2-5"] and ["5-2"] both resolve to
    [[1; 2; 3; 4]] for every [P ≥ 5]. *)
Theorem range_order_independent `{UnicodeData} :
  (∀ P e1 e2,
     1 ≤ P → endpoint_valid P e1 → endpoint_valid P e2 →
     ¬ reads_as_single e1 e2 → ¬ reads_as_single e2 e1 →
     resolve (range_text e1 e2) P = resolve (range_text e2 e1) P ∧
     resolve (range_text e1 e2) P
     = Ok (Some (range (Z.min (endpoint_page P e1) (endpoint_page P e2) - 1)
                       (Z.max (endpoint_page P e1) (endpoint_page P e2)))))
  ∧ (∀ P, 5 ≤ P →
       resolve (py "2-5") P = Ok (Some [1; 2; 3; 4]) ∧
       resolve (py "5-2") P = Ok (Some [1; 2; 3; 4]))
  ∧ (∀ P N, 1 ≤ N ≤ P - 1 →
       resolve (range_text ep_last (ep_page N)) P = Ok (Some [P - 1 - N]) ∧
       resolve (range_text (ep_page N) ep_last) P = Ok (Some (range (N - 1) P))).
Proof.
  split_and!.
  - intros P e1 e2 HP He1 He2 H12 H21.
    rewrite (resolve_range_text e1 e2), (resolve_range_text e2 e1) by done.
    by rewrite Z.min_comm, Z.max_comm.
  - intros P HP.
    change (py "2-5") with (range_text (ep_page 2) (ep_page 5)).
    change (py "5-2") with (range_text (ep_page 5) (ep_page 2)).
    rewrite !resolve_range_text by (simpl; lia || tauto). done.
  - intros P N HN. split.
    + change (range_text ep_last (ep_page N)) with (py "last-" ++ str_of_Z N).
      apply resolve_last_minus. lia.
    + rewrite resolve_range_text; [|lia|simpl; lia|done|tauto].
      cbn [endpoint_page]. by rewrite Z.min_l, Z.max_r by lia.
Qed.

Lemma range_order_independent_witness :
  @resolve ascii_only (range_text (ep_page 7) (ep_last_minus 4)) 9
  = @resolve ascii_only (range_text (ep_last_minus 4) (ep_page 7)) 9.
Proof.
  apply (proj1 (@range_order_independent ascii_only) 9
               (ep_page 7) (ep_last_minus 4));
    simpl; lia || tauto.
Defined.

(** C5. Out-of-range single tokens are errors: for every [P ≥ 1], ["0"],
    [str(P+1)] and ["last-P"] each raise the [ValueError] "Page out of
    range"; no list is returned. *)
Theorem resolve_out_of_range `{UnicodeData} (P : Z) :
  1 ≤ P →
  resolve (py "0") P = Raise (ValueError (Page_out_of_range (py "0"))) ∧
  resolve (str_of_Z (P + 1)) P
  = Raise (ValueError (Page_out_of_range (str_of_Z (P + 1)))) ∧
  resolve (py "last-" ++ str_of_Z P) P
  = Raise (ValueError (Page_out_of_range (py "last-" ++ str_of_Z P))).
Proof.
  intros HP. split_and!.
  - change (py "0") with (str_of_Z 0). apply resolve_page_out_of_range; lia.
  - apply resolve_page_out_of_range; lia.
  - apply resolve_last_minus_out_of_range; lia.
Qed.

Lemma resolve_out_of_range_witness :
  @resolve ascii_only (py "0") 3 = Raise (ValueError (Page_out_of_range (py "0"))) ∧
  @resolve ascii_only (str_of_Z (3 + 1)) 3
  = Raise (ValueError (Page_out_of_range (str_of_Z (3 + 1)))) ∧
  @resolve ascii_only (py "last-" ++ str_of_Z 3) 3
  = Raise (ValueError (Page_out_of_range (py "last-" ++ str_of_Z 3))).
Proof. apply (@resolve_out_of_range ascii_only 3). lia. Defined.

(** C6, as stated, fails: called with the empty string, [parse_pages_arg]
    raises nothing and returns [None]. *)
Lemma resolve_empty_counterexample :
  @parse_pages_arg ascii_only (Some []) 1 = Ok None ∧
  ¬ raises (@parse_pages_arg ascii_only (Some []) 1).
Proof. split; [reflexivity | intros []]. Qed.

(** C6, amended. For every [P], ["abc"] and ["1-"] raise "Invalid token",
    and an expression without any token, such as [","] or [" "], raises
    "empty after parsing"; the empty string itself is treated like an absent
    expression and returns [None]. *)
Theorem resolve_malformed `{UnicodeData} (P : Z) :
  resolve (py "abc") P = Raise (ValueError (Invalid_token (py "abc"))) ∧
  resolve (py "1-") P = Raise (ValueError (Invalid_token (py "1-"))) ∧
  resolve (py ",") P = Raise (ValueError (Empty_after_parsing (py ","))) ∧
  resolve (py " ") P = Raise (ValueError (Empty_after_parsing (py " "))) ∧
  resolve [] P = Ok None ∧
  parse_pages_arg None P = Ok None.
Proof.
  split_and!; reflexivity.
Qed.

(** C7, as stated, fails: ["1-all"] is no range token, it is rejected. *)
Lemma resolve_1_all_counterexample :
  @resolve ascii_only (py "1-all") 3
  = Raise (ValueError (Invalid_token (py "1-all"))) ∧
  @resolve ascii_only (py "1-all") 3 ≠ Ok (Some (range 0 3)).
Proof. split; [vm_compute; reflexivity | vm_compute; discriminate]. Qed.

(** C7, amended. [_parse_endpoint] maps both [all] and [last] to the
    one-based page [total_pages], but [_RANGE_RE] admits only [last] as an
    endpoint: for every [P ≥ 1], ["1-last"] resolves to [0, 1, ..., P-1],
    while ["1-all"] matches neither pattern and raises "Invalid token". *)
Theorem endpoint_all_and_last `{UnicodeData} (P : Z) :
  1 ≤ P →
  _parse_endpoint (py "all") P = Ok P ∧
  _parse_endpoint (py "last") P = Ok P ∧
  resolve (py "1-last") P = Ok (Some (range 0 P)) ∧
  fullmatch _RANGE_RE (py "1-all") = None ∧
  resolve (py "1-all") P = Raise (ValueError (Invalid_token (py "1-all"))).
Proof.
  intros HP. split_and!; [reflexivity | reflexivity | | reflexivity | reflexivity].
  by apply resolve_1_last.
Qed.

Lemma endpoint_all_and_last_witness :
  @_parse_endpoint ascii_only (py "all") 3 = Ok 3 ∧
  @_parse_endpoint ascii_only (py "last") 3 = Ok 3 ∧
  @resolve ascii_only (py "1-last") 3 = Ok (Some (range 0 3)) ∧
  @fullmatch ascii_only _RANGE_RE (py "1-all") = None ∧
  @resolve ascii_only (py "1-all") 3
  = Raise (ValueError (Invalid_token (py "1-all"))).
Proof. apply (@endpoint_all_and_last ascii_only 3). lia. Defined.

Lemma len_non_whitespace (txt : str) :
  len (filter (λ ch, ¬ Py_UNICODE_ISSPACE ch) txt) = non_whitespace_count txt.
Proof.
  unfold len. induction txt as [|ch txt IH]; [done|].
  cbn [non_whitespace_count]. rewrite <- IH.
  destruct (Py_UNICODE_ISSPACE ch) eqn:Hch.
  - rewrite filter_cons_False; [lia|]. rewrite Hch. by intros [].
  - rewrite filter_cons_True; [cbn [length]; lia|]. rewrite Hch. intros [].
Qed.

(** C8. [_is_scanned], the gate [needs_fallback] of the spec, is true
    exactly when the text has fewer than 20 non-whitespace characters: true
    with 19 of them, false with 20. *)
Theorem _is_scanned_threshold :
  (∀ txt, _is_scanned txt = true ↔ non_whitespace_count txt < 20) ∧
  (∀ txt, non_whitespace_count txt = 19 → _is_scanned txt = true) ∧
  (∀ txt, non_whitespace_count txt = 20 → _is_scanned txt = false) ∧
  _is_scanned (py " abcde fghij klmno pqrs " ++ [9; 10; 0x3000]%N) = true ∧
  _is_scanned (py " abcde fghij klmno pqrst " ++ [9; 10; 0x3000]%N) = false.
Proof.
  assert (∀ txt, _is_scanned txt = true ↔ non_whitespace_count txt < 20) as Hiff.
  { intros txt. unfold _is_scanned. cbn zeta. rewrite len_non_whitespace.
    apply bool_decide_eq_true. }
  split_and!; [done | | | by vm_compute..].
  - intros txt Htxt. apply Hiff. lia.
  - intros txt Htxt. apply not_true_is_false. rewrite Hiff. lia.
Qed.

Lemma _is_scanned_threshold_witness :
  non_whitespace_count (py "abcdefghi jklmnopqrs") = 19 ∧
  _is_scanned (py "abcdefghi jklmnopqrs") = true ∧
  non_whitespace_count (py "abcdefghij klmnopqrst") = 20 ∧
  _is_scanned (py "abcdefghij klmnopqrst") = false.
Proof.
  destruct _is_scanned_threshold as (_ & H19 & H20 & _).
  split_and!; [reflexivity | apply H19; reflexivity
              | reflexivity | apply H20; reflexivity].
Defined.

(** C9. [choose] returns the fallback text when it is present and strictly
    longer than the direct text after stripping, and the direct text
    otherwise: always the direct text when the fallback is absent, the
    recognized text against an empty direct text, the direct text against an
    empty fallback and on ties. The text [extract_full_text] keeps for a page
    is this choice, the OCR text being absent unless the page looks scanned
    and OCR is enabled. *)
Theorem choose_longer_stripped :
  (∀ direct, choose direct None = direct) ∧
  (∀ direct fallback,
     len (strip fallback) > len (strip direct) →
     choose direct (Some fallback) = fallback) ∧
  (∀ direct fallback,
     len (strip fallback) ≤ len (strip direct) →
     choose direct (Some fallback) = direct) ∧
  (∀ direct fallback,
     fallback ≠ direct → choose direct (Some fallback) = fallback →
     len (strip fallback) > len (strip direct)) ∧
  choose [] (Some (py "some recognized text")) = py "some recognized text" ∧
  choose (py "short") (Some []) = py "short" ∧
  choose (py " ab") (Some (py "xy  ")) = py " ab" ∧
  (∀ direct, choose direct (Some []) = direct) ∧
  (∀ ocr_if_scanned ocr_txt txt,
     page_text ocr_if_scanned ocr_txt txt
     = choose txt (if _is_scanned txt && ocr_if_scanned
                   then Some ocr_txt else None)).
Proof.
  split_and!; [done | | | | by vm_compute | by vm_compute | by vm_compute | | ].
  - intros direct fallback Hlen. unfold choose, pick_text.
    by rewrite bool_decide_eq_true_2.
  - intros direct fallback Hlen. unfold choose, pick_text.
    by rewrite bool_decide_eq_false_2 by lia.
  - intros direct fallback Hne. unfold choose, pick_text.
    case_bool_decide; [done|]. by intros <-.
  - intros direct. unfold choose, pick_text.
    rewrite bool_decide_eq_false_2; [done|]. unfold len. simpl. lia.
  - intros ocr_if_scanned ocr_txt txt. unfold page_text.
    by destruct (_is_scanned txt && ocr_if_scanned).
Qed.

Lemma choose_longer_stripped_witness :
  choose (py " a ") (Some (py "bc")) = py "bc" ∧
  choose (py "abc") (Some (py "  d  ")) = py "abc" ∧
  len (strip (py "bc")) > len (strip (py " a ")).
Proof.
  destruct choose_longer_stripped as (_ & Hgt & Hle & Honly & _).
  split_and!.
  - apply Hgt. vm_compute. reflexivity.
  - apply Hle. vm_compute. discriminate.
  - apply Honly; [discriminate | vm_compute; reflexivity].
Defined.

Lemma last_K_last_text (K : Z) :
  py "last-" ++ str_of_Z K ++ py "-last" = range_text (ep_last_minus K) ep_last.
Proof.
  unfold range_text. cbn [endpoint_text]. by rewrite <- (assoc_L (++)).
Qed.

(** C10. The three-part token [last-K-last] is not a single token; it is
    matched by [_RANGE_RE] with the greedy first endpoint [last-K] and the
    second endpoint [last], and for every [P ≥ K+1] it resolves to the pages
    [P-1-K, ..., P-1]. *)
Theorem resolve_last_K_last `{UnicodeData} (P K : Z) :
  0 ≤ K → K + 1 ≤ P →
  fullmatch _SINGLE_RE (py "last-" ++ str_of_Z K ++ py "-last") = None ∧
  (∃ m, fullmatch _RANGE_RE (py "last-" ++ str_of_Z K ++ py "-last") = Some m ∧
        group m 1 = py "last-" ++ str_of_Z K ∧ group m 2 = py "last") ∧
  resolve (py "last-" ++ str_of_Z K ++ py "-last") P
  = Ok (Some (range (P - 1 - K) P)).
Proof.
  intros HK HP. rewrite last_K_last_text. split_and!.
  - apply fullmatch_single_range; [exact HK | exact I | tauto].
  - apply (fullmatch_range_endpoints (ep_last_minus K) ep_last);
      [exact HK | exact I | tauto].
  - rewrite resolve_range_text; [|lia|simpl; lia|done|tauto].
    cbn [endpoint_page]. rewrite Z.min_l, Z.max_r by lia.
    do 3 f_equal. lia.
Qed.

Lemma resolve_last_K_last_witness :
  @resolve ascii_only (py "last-2-last") 10 = Ok (Some [7; 8; 9]) ∧
  @resolve ascii_only (py "last-" ++ str_of_Z 2 ++ py "-last") 10
  = Ok (Some (range (10 - 1 - 2) 10)).
Proof.
  split; [vm_compute; reflexivity|].
  apply (@resolve_last_K_last ascii_only 10 2); lia.
Defined.


(** * Further properties of the parser *)

(** ** [strip] *)

Lemma lstrip_blank ws s : blank ws → lstrip (ws ++ s) = lstrip s.
Proof. induction 1 as [|c ws Hc _ IH]; [done|]. simpl. by rewrite Hc. Qed.

Lemma lstrip_decompose s : ∃ ws, s = ws ++ lstrip s ∧ blank ws.
Proof.
  induction s as [|c s (ws & Hs & Hws)]; [exists []; by split; [|constructor]|].
  simpl. destruct (Py_UNICODE_ISSPACE c) eqn:Hc.
  - exists (c :: ws). split; [by rewrite Hs at 1|by constructor].
  - exists []. by split; [|constructor].
Qed.

Lemma lstrip_start s : no_start Py_UNICODE_ISSPACE (lstrip s).
Proof.
  induction s as [|c s IH]; [done|]. simpl.
  by destruct (Py_UNICODE_ISSPACE c) eqn:Hc.
Qed.

Lemma lstrip_id s : no_start Py_UNICODE_ISSPACE s → lstrip s = s.
Proof. destruct s as [|c s]; [done|]. simpl. by intros ->. Qed.

Lemma lstrip_nil s : lstrip s = [] ↔ blank s.
Proof.
  split.
  - intros Hs. destruct (lstrip_decompose s) as (ws & Hw & Hws).
    rewrite Hs, app_nil_r in Hw. by subst.
  - intros Hs. rewrite <- (app_nil_r s). by rewrite lstrip_blank.
Qed.

Lemma lstrip_app s t : lstrip s ≠ [] → lstrip (s ++ t) = lstrip s ++ t.
Proof.
  induction s as [|c s IH]; [done|]. simpl.
  destruct (Py_UNICODE_ISSPACE c); [done|]. done.
Qed.

Lemma rstrip_blank s ws : blank ws → rstrip (s ++ ws) = rstrip s.
Proof.
  intros Hws. unfold rstrip. rewrite reverse_app, lstrip_blank; [done|].
  by apply Forall_reverse.
Qed.

Lemma rstrip_decompose s : ∃ ws, s = rstrip s ++ ws ∧ blank ws.
Proof.
  destruct (lstrip_decompose (reverse s)) as (ws & Hs & Hws).
  exists (reverse ws). split; [|by apply Forall_reverse].
  unfold rstrip. by rewrite <- reverse_app, <- Hs, reverse_involutive.
Qed.

Lemma rstrip_nil s : rstrip s = [] ↔ blank s.
Proof.
  unfold rstrip. split.
  - intros Hs. apply (f_equal reverse) in Hs.
    rewrite reverse_involutive, reverse_nil in Hs.
    apply lstrip_nil in Hs. unfold blank in *. by rewrite Forall_reverse in Hs.
  - intros Hs. assert (lstrip (reverse s) = []) as ->; [|done].
    apply lstrip_nil. unfold blank in *. by apply Forall_reverse.
Qed.

Lemma rstrip_start s :
  no_start Py_UNICODE_ISSPACE s → no_start Py_UNICODE_ISSPACE (rstrip s).
Proof.
  intros Hs. destruct (rstrip_decompose s) as (ws & Hw & Hws).
  destruct (rstrip s) as [|c r]; [done|]. rewrite Hw in Hs. done.
Qed.

Lemma rstrip_idemp s : rstrip (rstrip s) = rstrip s.
Proof.
  unfold rstrip. rewrite reverse_involutive.
  by rewrite (lstrip_id (lstrip _)) by apply lstrip_start.
Qed.

Lemma strip_blank_l ws s : blank ws → strip (ws ++ s) = strip s.
Proof. intros Hws. unfold strip. by rewrite lstrip_blank. Qed.

Lemma strip_nil s : strip s = [] ↔ blank s.
Proof.
  unfold strip. rewrite rstrip_nil. split.
  - intros Hs. apply lstrip_nil. apply lstrip_nil in Hs.
    by rewrite lstrip_id in Hs by apply lstrip_start.
  - intros Hs%lstrip_nil. rewrite Hs. constructor.
Qed.

Lemma strip_blank_r s ws : blank ws → strip (s ++ ws) = strip s.
Proof.
  intros Hws. destruct (decide (lstrip s = [])) as [Hs|Hs].
  - assert (blank (s ++ ws)) as Hb.
    { apply Forall_app. split; [by apply lstrip_nil|done]. }
    apply strip_nil in Hb as ->. symmetry. by apply strip_nil, lstrip_nil.
  - unfold strip. by rewrite lstrip_app, rstrip_blank.
Qed.

Lemma strip_idemp s : strip (strip s) = strip s.
Proof.
  unfold strip. rewrite (lstrip_id (rstrip _)), rstrip_idemp; [done|].
  apply rstrip_start, lstrip_start.
Qed.

Lemma strip_decompose s :
  ∃ ws1 ws2, s = ws1 ++ strip s ++ ws2 ∧ blank ws1 ∧ blank ws2.
Proof.
  destruct (lstrip_decompose s) as (ws1 & Hs1 & Hws1).
  destruct (rstrip_decompose (lstrip s)) as (ws2 & Hs2 & Hws2).
  exists ws1, ws2. split; [|done]. unfold strip. by rewrite <- Hs2.
Qed.

(** ** Segments and the loop *)

Lemma split_nonempty sep s : split sep s ≠ [].
Proof.
  destruct s as [|c s]; [done|]. cbn [split].
  case_bool_decide; [done|]. by destruct (split sep s).
Qed.

Lemma split_app sep a b :
  split sep (a ++ sep :: b) = split sep a ++ split sep b.
Proof.
  induction a as [|c a IH]; cbn [app split].
  - by rewrite bool_decide_eq_true_2.
  - case_bool_decide; [by rewrite IH|]. rewrite IH.
    pose proof (split_nonempty sep a). by destruct (split sep a).
Qed.

Lemma translate_app f a b : translate f (a ++ b) = translate f a ++ translate f b.
Proof. unfold translate. apply map_app. Qed.

Lemma _DASHES_idemp c : _DASHES (_DASHES c) = _DASHES c.
Proof.
  unfold _DASHES at 2 3. case_match eqn:Hc; [done|].
  unfold _DASHES. by rewrite Hc.
Qed.

Lemma translate_idemp s : translate _DASHES (translate _DASHES s) = translate _DASHES s.
Proof.
  unfold translate. rewrite map_map. apply map_ext. apply _DASHES_idemp.
Qed.

Lemma translate_comma a b :
  translate _DASHES (a ++ py "," ++ b)
  = translate _DASHES a ++ 44%N :: translate _DASHES b.
Proof. by rewrite !translate_app. Qed.

Lemma sorted_set_ext (l k : list Z) :
  (∀ x, x ∈ l ↔ x ∈ k) → sorted_set l = sorted_set k.
Proof.
  intros Hlk. apply sorted_set_unique;
    [apply Sorted_sorted_set | apply NoDup_sorted_set |].
  intros x. by rewrite elem_of_sorted_set.
Qed.

Lemma sorted_set_nil (l : list Z) : sorted_set l = [] ↔ l = [].
Proof.
  split; [|by intros ->].
  intros Hl. destruct l as [|x l]; [done|].
  assert (x ∈ sorted_set (x :: l)) as Hx by (apply elem_of_sorted_set; left).
  rewrite Hl in Hx. by apply elem_of_nil in Hx.
Qed.

Section loop.
Context `{UnicodeData}.
Implicit Types (P : Z) (w : list Z) (a : bool) (segs : list str).

Lemma loop_body_acc P w a raw :
  loop_body P (w, a) raw
  = '(w', a') ← loop_body P ([], false) raw; Ok (w ++ w', a || a').
Proof.
  unfold loop_body. case_bool_decide.
  { cbn. by rewrite app_nil_r, orb_false_r. }
  destruct (fullmatch _SINGLE_RE _) as [m|].
  - destruct (_parse_one_token _ _) as [idx|]; [|done]. cbn.
    case_bool_decide; cbn; by rewrite orb_true_r.
  - destruct (fullmatch _RANGE_RE _) as [m|]; [|done].
    destruct (_parse_endpoint (group m 1) _) as [x|]; [|done].
    destruct (_parse_endpoint (group m 2) _) as [y|]; [|done]. cbn.
    case_bool_decide; cbn; by rewrite orb_true_r.
Qed.

Lemma for_loop_acc P segs w a :
  for_loop P (w, a) segs
  = '(w', a') ← for_loop P ([], false) segs; Ok (w ++ w', a || a').
Proof.
  revert w a. induction segs as [|raw segs IH]; intros w a; cbn [for_loop].
  { cbn. by rewrite app_nil_r, orb_false_r. }
  rewrite loop_body_acc.
  destruct (loop_body P ([], false) raw) as [[w1 a1]|]; [|done]. cbn.
  rewrite (IH (w ++ w1)), (IH w1).
  destruct (for_loop P ([], false) segs) as [[w2 a2]|]; [|done]. cbn.
  by rewrite (assoc_L (++)), orb_assoc.
Qed.

Lemma for_loop_app P st l1 l2 :
  for_loop P st (l1 ++ l2) = st' ← for_loop P st l1; for_loop P st' l2.
Proof.
  revert st. induction l1 as [|raw l1 IH]; intros st; cbn [app for_loop]; [done|].
  destruct (loop_body P st raw) as [st'|]; [|done]. cbn. apply IH.
Qed.

(** What a returned list says about the loop. *)
Lemma resolve_Some s P l :
  resolve s P = Ok (Some l) ↔
  s ≠ [] ∧ ∃ w, for_loop P ([], false) (split 44%N (translate _DASHES s))
                = Ok (w, true) ∧ l = sorted_set w ∧ w ≠ [].
Proof.
  unfold resolve, parse_pages_arg. destruct s as [|c s].
  { split; [done|]. by intros [? _]. }
  destruct (for_loop _ _ _) as [[w a]|]; cbn.
  - destruct a; cbn.
    + case_bool_decide as Hw.
      * split; [done|]. intros (_ & w' & [= <-] & _ & Hne).
        apply (proj1 (sorted_set_nil _)) in Hw. contradiction.
      * split.
        -- intros [= <-]. split; [done|]. exists w. split_and!; [done..|].
           by intros ->.
        -- by intros (_ & w' & [= <-] & -> & _).
    + split; [done|]. by intros (_ & w' & [= _] & _).
  - split; [done|]. by intros (_ & w' & [=] & _).
Qed.

(** An exception of the loop is the exception of the call. *)
Lemma resolve_loop_raise s P e :
  s ≠ [] →
  for_loop P ([], false) (split 44%N (translate _DASHES s)) = Raise e →
  resolve s P = Raise e.
Proof.
  intros Hs Hl. unfold resolve, parse_pages_arg.
  destruct s as [|c s]; [done|]. by rewrite Hl.
Qed.

Lemma resolve_token_error s P m :
  resolve s P = Raise (ValueError m) → token_error m →
  s ≠ [] ∧
  for_loop P ([], false) (split 44%N (translate _DASHES s))
  = Raise (ValueError m).
Proof.
  unfold resolve, parse_pages_arg. destruct s as [|c s]; [done|].
  destruct (for_loop _ _ _) as [[w a]|]; cbn.
  - destruct a; cbn; [case_bool_decide|]; by intros [= <-].
  - by intros [= ->].
Qed.
End loop.

(** ** Expressions of several tokens *)

Section commas.
Context `{UnicodeData}.
Implicit Types (a b s : str) (P : Z).

Lemma for_loop_comma a b P :
  for_loop P ([], false) (split 44%N (translate _DASHES (a ++ py "," ++ b)))
  = '(wa, ta) ← for_loop P ([], false) (split 44%N (translate _DASHES a));
    '(wb, tb) ← for_loop P ([], false) (split 44%N (translate _DASHES b));
    Ok (wa ++ wb, ta || tb).
Proof.
  rewrite translate_comma, split_app, for_loop_app.
  destruct (for_loop P _ (split _ (translate _ a))) as [[wa ta]|]; [|done].
  cbn. apply for_loop_acc.
Qed.

Lemma comma_nonempty a b : a ++ py "," ++ b ≠ [].
Proof. by destruct a. Qed.

Lemma resolve_comma a b P la lb :
  resolve a P = Ok (Some la) → resolve b P = Ok (Some lb) →
  resolve (a ++ py "," ++ b) P = Ok (Some (sorted_set (la ++ lb))).
Proof.
  intros (_ & wa & Ha & -> & Hna)%resolve_Some (_ & wb & Hb & -> & Hnb)%resolve_Some.
  apply resolve_Some. split; [apply comma_nonempty|].
  exists (wa ++ wb). rewrite for_loop_comma, Ha. cbn. rewrite Hb. cbn.
  split_and!; [done| |by destruct wa].
  apply sorted_set_ext. intros x.
  by rewrite !elem_of_app, !elem_of_sorted_set.
Qed.
End commas.

(** X1. A comma is a union: when two expressions each resolve to a list, the
    two joined by a comma resolve to the sorted, duplicate-free union of
    the two lists. *)
Theorem resolve_comma_union `{UnicodeData} (a b : str) (P : Z) (la lb : list Z) :
  resolve a P = Ok (Some la) → resolve b P = Ok (Some lb) →
  resolve (a ++ py "," ++ b) P = Ok (Some (sorted_set (la ++ lb))) ∧
  ∀ x, x ∈ sorted_set (la ++ lb) ↔ x ∈ la ∨ x ∈ lb.
Proof.
  intros Ha Hb. split; [by apply resolve_comma|].
  intros x. by rewrite elem_of_sorted_set, elem_of_app.
Qed.

Lemma resolve_comma_union_witness :
  @resolve ascii_only (py "4-5" ++ py "," ++ py "last-3,1") 6
  = Ok (Some (sorted_set ([3; 4] ++ [0; 2]))).
Proof.
  apply (@resolve_comma_union ascii_only (py "4-5") (py "last-3,1") 6);
    vm_compute; reflexivity.
Defined.

(** X2. The order of the tokens and their repetition do not matter: when [a]
    and [b] each resolve to a list, [a,b] and [b,a] resolve to the same
    list, and [a,a] resolves to the list of [a]. *)
Theorem resolve_comma_order `{UnicodeData} (a b : str) (P : Z) (la lb : list Z) :
  resolve a P = Ok (Some la) → resolve b P = Ok (Some lb) →
  resolve (a ++ py "," ++ b) P = resolve (b ++ py "," ++ a) P ∧
  resolve (a ++ py "," ++ a) P = resolve a P.
Proof.
  intros Ha Hb. split.
  - rewrite (resolve_comma a b P la lb), (resolve_comma b a P lb la) by done.
    do 2 f_equal. apply sorted_set_ext. intros x. rewrite !elem_of_app. tauto.
  - rewrite (resolve_comma a a P la la), Ha by done. do 2 f_equal.
    apply resolve_Some in Ha as (_ & wa & _ & -> & _).
    apply sorted_set_ext. intros x.
    rewrite elem_of_app, !elem_of_sorted_set. tauto.
Qed.

Lemma resolve_comma_order_witness :
  @resolve ascii_only (py "last" ++ py "," ++ py "2-1") 7
  = @resolve ascii_only (py "2-1" ++ py "," ++ py "last") 7 ∧
  @resolve ascii_only (py "last" ++ py "," ++ py "last") 7
  = @resolve ascii_only (py "last") 7.
Proof.
  apply (@resolve_comma_order ascii_only (py "last") (py "2-1") 7 [6] [0; 1]);
    vm_compute; reflexivity.
Defined.

(** X3. No partial result: when an expression fails on one of its tokens,
    every expression that contains it as a comma-separated part fails too,
    with the same error when the failing part comes first. *)
Theorem resolve_error_propagates `{UnicodeData} (a b : str) (P : Z) (m : message) :
  resolve a P = Raise (ValueError m) → token_error m →
  resolve (a ++ py "," ++ b) P = Raise (ValueError m) ∧
  raises (resolve (b ++ py "," ++ a) P).
Proof.
  intros Ha Hm. apply resolve_token_error in Ha as [_ Ha]; [|done]. split.
  - apply resolve_loop_raise; [apply comma_nonempty|].
    by rewrite for_loop_comma, Ha.
  - destruct (for_loop P ([], false) (split 44%N (translate _DASHES (b ++ py "," ++ a))))
      as [[w t]|e] eqn:Hl.
    + rewrite for_loop_comma, Ha in Hl.
      by destruct (for_loop P _ (split _ (translate _ b))) as [[wb tb]|].
    + by rewrite (resolve_loop_raise _ _ e) by (apply comma_nonempty || done).
Qed.

Lemma resolve_error_propagates_witness :
  @resolve ascii_only (py "9" ++ py "," ++ py "1-2") 5
  = Raise (ValueError (Page_out_of_range (py "9"))) ∧
  raises (@resolve ascii_only (py "1-2" ++ py "," ++ py "9") 5).
Proof.
  apply (@resolve_error_propagates ascii_only (py "9") (py "1-2") 5);
    [vm_compute; reflexivity | exact I].
Defined.

(** ** Blank segments and the errors of the loop *)

Lemma split_blank s :
  Forall (λ c, Py_UNICODE_ISSPACE c = true ∨ c = 44%N) s
  ↔ Forall blank (split 44%N s).
Proof.
  induction s as [|c s IH]; cbn [split].
  - split; intros _; repeat constructor.
  - rewrite Forall_cons, IH. case_bool_decide as Hc.
    + rewrite Forall_cons. split; [intros [_ ?]|intros [_ ?]]; split; auto.
      constructor.
    + pose proof (split_nonempty 44%N s).
      destruct (split 44%N s) as [|w ws]; [done|].
      rewrite !Forall_cons. unfold blank at 1 3. rewrite Forall_cons.
      split; [intros [[?|?] [? ?]]|intros [[? ?] ?]]; try done; auto.
Qed.

Lemma _DASHES_cases c :
  _DASHES c = c
  ∨ (_DASHES c = 45%N ∧ Py_UNICODE_ISSPACE c = false ∧ c ≠ 44%N).
Proof.
  unfold _DASHES. case_match eqn:Hc; [right|by left].
  split; [done|]. split; [apply not_true_is_false; intros Hs|intros ->];
    char_facts; lia.
Qed.

Lemma translate_blank s :
  Forall (λ c, Py_UNICODE_ISSPACE c = true ∨ c = 44%N) (translate _DASHES s)
  ↔ Forall (λ c, Py_UNICODE_ISSPACE c = true ∨ c = 44%N) s.
Proof.
  unfold translate. rewrite Forall_fmap. apply Forall_proper; [|done].
  intros c. cbn. destruct (_DASHES_cases c) as [->|(-> & Hs & Hc)]; [done|].
  rewrite Hs. split; intros [?|?]; done.
Qed.

Section errors.
Context `{UnicodeData}.
Implicit Types (P : Z) (w : list Z) (segs : list str).

Lemma last_offset_raise tok t e :
  startswith (py "last-") t = true → last_offset tok t = Raise e →
  ∃ m, e = ValueError m ∧ token_error m.
Proof.
  intros Ht%startswith_spec. unfold last_offset. rewrite Ht.
  change (py "last-" ++ ?r) with (py "last" ++ 45%N :: r).
  rewrite split1_first
    by (py_norm; rewrite !not_elem_of_cons; split_and!;
        [done..|apply not_elem_of_nil]).
  cbn [lookup list_lookup]. destruct (isdigit _); cbn [negb].
  - destruct (int_ _); [done|]. intros [= <-]. by eexists.
  - intros [= <-]. by eexists.
Qed.

Lemma _parse_one_token_raise tok P e :
  _parse_one_token tok P = Raise e → ∃ m, e = ValueError m ∧ token_error m.
Proof.
  unfold _parse_one_token. case_bool_decide; [done|]. case_bool_decide; [done|].
  destruct (startswith _ _) eqn:Hs.
  - destruct (last_offset _ _) as [off|e'] eqn:Ho; cbn.
    + case_bool_decide; [done|]. intros [= <-]. by eexists.
    + intros [= <-]. by eapply last_offset_raise.
  - destruct (isdigit _); [|intros [= <-]; by eexists].
    destruct (int_ _); [|intros [= <-]; by eexists].
    case_bool_decide; [done|]. intros [= <-]. by eexists.
Qed.

Lemma _parse_endpoint_raise val P e :
  _parse_endpoint val P = Raise e → ∃ m, e = ValueError m ∧ token_error m.
Proof.
  unfold _parse_endpoint. case_bool_decide; [done|].
  destruct (startswith _ _) eqn:Hs.
  - destruct (last_offset _ _) as [off|e'] eqn:Ho; cbn.
    + case_bool_decide; [done|]. intros [= <-]. by eexists.
    + intros [= <-]. by eapply last_offset_raise.
  - destruct (isdigit _); [|intros [= <-]; by eexists].
    destruct (int_ _); [|intros [= <-]; by eexists].
    case_bool_decide; [done|]. intros [= <-]. by eexists.
Qed.

Lemma loop_body_raise P st raw e :
  loop_body P st raw = Raise e → ∃ m, e = ValueError m ∧ token_error m.
Proof.
  unfold loop_body. destruct st as [w a]. case_bool_decide; [done|].
  destruct (fullmatch _SINGLE_RE _) as [m|].
  - destruct (_parse_one_token _ _) as [idx|e'] eqn:Hi; cbn.
    + by case_bool_decide.
    + intros [= <-]. by eapply _parse_one_token_raise.
  - destruct (fullmatch _RANGE_RE _) as [m|]; [|intros [= <-]; by eexists].
    destruct (_parse_endpoint (group m 1) _) as [x|e'] eqn:Hx; cbn;
      [|intros [= <-]; by eapply _parse_endpoint_raise].
    destruct (_parse_endpoint (group m 2) _) as [y|e'] eqn:Hy; cbn;
      [|intros [= <-]; by eapply _parse_endpoint_raise].
    by case_bool_decide.
Qed.

Lemma for_loop_raise P st segs e :
  for_loop P st segs = Raise e → ∃ m, e = ValueError m ∧ token_error m.
Proof.
  revert st. induction segs as [|raw segs IH]; intros st; cbn [for_loop]; [done|].
  destruct (loop_body P st raw) as [st'|e'] eqn:Hb; cbn.
  - apply IH.
  - intros [= <-]. by eapply loop_body_raise.
Qed.

Lemma loop_body_blank P st raw : blank raw → loop_body P st raw = Ok st.
Proof.
  intros Hb%strip_nil. unfold loop_body. destruct st as [w a].
  by rewrite Hb, bool_decide_eq_true_2.
Qed.

Lemma for_loop_blank P st segs : Forall blank segs → for_loop P st segs = Ok st.
Proof.
  intros Hb. revert st. induction Hb as [|raw segs Hraw _ IH]; intros st; [done|].
  cbn [for_loop]. rewrite loop_body_blank by done. apply IH.
Qed.

(** A segment with a token sets [any_tok] and extends [wanted]. *)
Lemma loop_body_token P w a raw w' a' :
  loop_body P (w, a) raw = Ok (w', a') →
  (blank raw ∧ w' = w ∧ a' = a)
  ∨ (a' = true ∧ ∃ x, w' = w ++ x ∧ (1 ≤ P → x ≠ [])).
Proof.
  unfold loop_body. case_bool_decide as Hs.
  { intros [= <- <-]. left. by apply strip_nil in Hs. }
  intros Hb. right. revert Hb.
  destruct (fullmatch _SINGLE_RE _) as [m|].
  - destruct (_parse_one_token _ _) as [idx|]; [|done]. cbn.
    case_bool_decide; intros [= <- <-]; (split; [done|]); eexists; (split; [done|]).
    + intros HP. apply range_nonempty. lia.
    + done.
  - destruct (fullmatch _RANGE_RE _) as [m|]; [|done].
    destruct (_parse_endpoint (group m 1) _) as [x|]; [|done].
    destruct (_parse_endpoint (group m 2) _) as [y|]; [|done]. cbn.
    case_bool_decide; intros [= <- <-]; (split; [done|]); eexists;
      (split; [done|]); intros _; apply range_nonempty; lia.
Qed.

Lemma for_loop_token P segs w a w' a' :
  for_loop P (w, a) segs = Ok (w', a') →
  (Forall blank segs ∧ w' = w ∧ a' = a)
  ∨ (a' = true ∧ ∃ x, w' = w ++ x ∧ (1 ≤ P → x ≠ [])).
Proof.
  revert w a. induction segs as [|raw segs IH]; intros w a; cbn [for_loop].
  { intros [= <- <-]. left. by split; [constructor|]. }
  destruct (loop_body P (w, a) raw) as [[w1 a1]|] eqn:Hb; [|done]. cbn.
  intros Hl. apply loop_body_token in Hb. apply IH in Hl.
  destruct Hb as [(Hraw & -> & ->)|(-> & x & -> & Hx)],
           Hl as [(Hsegs & -> & ->)|(-> & y & -> & Hy)].
  - left. by split; [constructor|].
  - right. eauto.
  - right. split; [done|]. eauto.
  - right. split; [done|]. exists (x ++ y). rewrite (assoc_L (++)).
    split; [done|]. intros HP. specialize (Hx HP). by destruct x.
Qed.
End errors.

(** X4. "Empty after parsing" is raised exactly by the non-empty expressions
    made of whitespace and commas only. *)
Theorem resolve_empty_after_parsing `{UnicodeData} (s : str) (P : Z) :
  resolve s P = Raise (ValueError (Empty_after_parsing s))
  ↔ s ≠ [] ∧ Forall (λ c, Py_UNICODE_ISSPACE c = true ∨ c = 44%N) s.
Proof.
  split.
  - unfold resolve, parse_pages_arg. destruct s as [|c s]; [done|].
    destruct (for_loop _ _ _) as [[w a]|e] eqn:Hl; cbn.
    + destruct a; cbn; [by case_bool_decide|]. intros _. split; [done|].
      apply for_loop_token in Hl as [(Hb & _ & _)|(? & _)]; [|done].
      by apply translate_blank, split_blank.
    + intros [= ->]. by apply for_loop_raise in Hl as (m & [= <-] & []).
  - intros [Hs Hb]. unfold resolve, parse_pages_arg.
    destruct s as [|c s]; [done|].
    by rewrite for_loop_blank by by apply split_blank, translate_blank.
Qed.

(** X5. Empty and blank segments are skipped: joining an expression that
    resolves to a list with a text of whitespace and commas only (such as a
    trailing or a doubled comma), on either side, gives the same list. *)
Theorem resolve_blank_parts `{UnicodeData} (a b : str) (P : Z) (la : list Z) :
  resolve a P = Ok (Some la) →
  Forall (λ c, Py_UNICODE_ISSPACE c = true ∨ c = 44%N) b →
  resolve (a ++ py "," ++ b) P = Ok (Some la) ∧
  resolve (b ++ py "," ++ a) P = Ok (Some la).
Proof.
  intros (_ & wa & Ha & -> & Hna)%resolve_Some Hb.
  apply translate_blank, split_blank in Hb.
  split; apply resolve_Some; (split; [apply comma_nonempty|]); exists wa;
    rewrite for_loop_comma, Ha, (for_loop_blank _ _ _ Hb); cbn;
    by rewrite ?app_nil_r.
Qed.

Lemma resolve_blank_parts_witness :
  @resolve ascii_only (py "2,1" ++ py "," ++ py " , ,") 3 = Ok (Some [0; 1]) ∧
  @resolve ascii_only (py " , ," ++ py "," ++ py "2,1") 3 = Ok (Some [0; 1]).
Proof.
  apply (@resolve_blank_parts ascii_only (py "2,1") (py " , ,") 3 [0; 1]).
  - vm_compute. reflexivity.
  - py_norm. repeat constructor; (by left) || (by right).
Defined.

(** X6. The Unicode dashes are read as [-]: an expression and its
    translation by [_DASHES] resolve to the same result, or both fail. *)
Theorem resolve_dashes `{UnicodeData} (s : str) (P : Z) :
  same_outcome (resolve (translate _DASHES s) P) (resolve s P).
Proof.
  unfold resolve, parse_pages_arg. destruct s as [|c s]; [done|].
  pose proof (translate_idemp (c :: s)) as Hi.
  destruct (translate _DASHES (c :: s)) as [|d t] eqn:Ht; [done|].
  rewrite Hi. unfold same_outcome.
  destruct (for_loop _ _ _) as [[w a]|e]; cbn; [|done].
  destruct a; cbn; [|done]. by case_bool_decide.
Qed.

(** X7. Two error branches are dead in practice: [parse_pages_arg] never
    raises the [IndexError] of [t.split("-", 1)[1]], and on a document of at
    least one page it never raises "no valid pages"; that last error needs
    a page count below one, as for ["all"] on 0 pages. *)
Theorem parse_pages_arg_dead_errors `{UnicodeData} :
  (∀ pages_arg P, parse_pages_arg pages_arg P ≠ Raise IndexError) ∧
  (∀ pages_arg P s,
     1 ≤ P → parse_pages_arg pages_arg P ≠ Raise (ValueError (No_valid_pages s))) ∧
  resolve (py "all") 0 = Raise (ValueError (No_valid_pages (py "all"))).
Proof.
  split_and!; [| |reflexivity].
  - intros [[|c s]|] P; try done. unfold parse_pages_arg.
    destruct (for_loop _ _ _) as [[w a]|e] eqn:Hl; cbn.
    + destruct a; cbn; [by case_bool_decide|done].
    + apply for_loop_raise in Hl as (m & -> & _). done.
  - intros [[|c s]|] P s' HP; try done. unfold parse_pages_arg.
    destruct (for_loop _ _ _) as [[w a]|e] eqn:Hl; cbn.
    + destruct a; cbn; [|done]. case_bool_decide as Hw; [|done].
      apply (proj1 (sorted_set_nil _)) in Hw. subst w.
      apply for_loop_token in Hl as [(_ & _ & ?)|(_ & x & Hx & Hne)]; [done|].
      specialize (Hne HP). by destruct x.
    + apply for_loop_raise in Hl as (m & -> & Hm). intros [= ->]. done.
Qed.

Lemma parse_pages_arg_dead_errors_witness :
  @parse_pages_arg ascii_only (Some (py "all")) 1
  ≠ Raise (ValueError (No_valid_pages (py "all"))).
Proof.
  apply (proj1 (proj2 (@parse_pages_arg_dead_errors ascii_only))). lia.
Defined.

(** X8. The two token readers agree: on every text other than [all], and for
    every page count, [_parse_endpoint] returns the one-based number of the
    zero-based page [_parse_one_token] returns, and one raises exactly when
    the other does. *)
Theorem endpoint_is_token_plus_one `{UnicodeData} (val : str) (P : Z) :
  lower (strip val) ≠ py "all" →
  same_outcome (idx ← _parse_one_token val P; Ok (idx + 1))
               (_parse_endpoint val P).
Proof.
  intros Hall. unfold _parse_one_token, _parse_endpoint, same_outcome.
  rewrite (bool_decide_eq_false_2 (_ = py "all")) by done.
  destruct (decide (lower (strip val) = py "last")) as [Hl|Hl].
  { rewrite !bool_decide_eq_true_2 by auto. cbn. lia. }
  rewrite !bool_decide_eq_false_2 by (done || by intros [|]).
  destruct (startswith _ _).
  - destruct (last_offset _ _) as [off|]; cbn; [|done].
    destruct (decide (0 ≤ P - 1 - off < P)).
    + rewrite !bool_decide_eq_true_2 by lia. cbn. lia.
    + by rewrite !bool_decide_eq_false_2 by lia.
  - destruct (isdigit _); [|done]. destruct (int_ _) as [p|]; [|done].
    destruct (decide (1 ≤ p ≤ P)).
    + rewrite !bool_decide_eq_true_2 by lia. cbn. lia.
    + by rewrite !bool_decide_eq_false_2 by lia.
Qed.

Lemma endpoint_is_token_plus_one_witness :
  same_outcome (idx ← @_parse_one_token ascii_only (py " Last-2 ") 5; Ok (idx + 1))
               (@_parse_endpoint ascii_only (py " Last-2 ") 5) ∧
  @_parse_endpoint ascii_only (py " Last-2 ") 5 = Ok 3.
Proof.
  split; [|vm_compute; reflexivity].
  apply (@endpoint_is_token_plus_one ascii_only). vm_compute. discriminate.
Defined.

(** X9. A returned list never has more entries than the document has pages,
    and it has that many only when it is the full list [0, ..., P-1]. *)
Theorem parse_pages_arg_size `{UnicodeData}
    (pages_arg : option str) (P : Z) (res : list Z) :
  1 ≤ P → parse_pages_arg pages_arg P = Ok (Some res) →
  len_pages res ≤ P ∧ (len_pages res = P → res = range 0 P).
Proof.
  intros HP Hres. destruct (parse_pages_arg_list _ _ _ HP Hres) as (_ & Hnd & _ & Hin).
  assert (res ⊆+ range 0 P) as Hsub.
  { apply NoDup_submseteq; [done|]. intros x Hx. apply elem_of_seqZ.
    apply (proj1 (Forall_forall _ _) Hin) in Hx. lia. }
  assert (length (range 0 P) = Z.to_nat P) as Hlen.
  { rewrite range_length. f_equal. lia. }
  unfold len_pages. split.
  - apply submseteq_length in Hsub. lia.
  - intros Hfull. destruct pages_arg as [s|]; [|done].
    apply resolve_Some in Hres as (_ & w & _ & -> & _).
    apply (Sorted_unique Z.le);
      [apply Sorted_sorted_set | apply Sorted_seqZ |].
    apply submseteq_length_Permutation; [done|]. lia.
Qed.

Lemma parse_pages_arg_size_witness :
  len_pages [0; 1; 2] ≤ 3 ∧ (len_pages [0; 1; 2] = 3 → [0; 1; 2] = range 0 3).
Proof.
  apply (@parse_pages_arg_size ascii_only (Some (py "3,1-2,2")) 3);
    [lia | vm_compute; reflexivity].
Defined.

(** ** Whitespace around an expression *)

Lemma split_no_sep sep s : sep ∉ s → split sep s = [s].
Proof.
  induction s as [|c s IH]; [done|]. intros [Hc Hs]%not_elem_of_cons.
  cbn [split]. rewrite bool_decide_eq_false_2 by done. by rewrite IH.
Qed.

Lemma split_pad_l sep ws t :
  sep ∉ ws →
  ∃ hd tl, split sep t = hd :: tl ∧ split sep (ws ++ t) = (ws ++ hd) :: tl.
Proof.
  induction ws as [|c ws IH].
  - intros _. pose proof (split_nonempty sep t).
    destruct (split sep t) as [|hd tl] eqn:Ht; [done|]. by exists hd, tl.
  - intros [Hc Hws]%not_elem_of_cons. destruct (IH Hws) as (hd & tl & Ht & Hw).
    exists hd, tl. split; [done|]. cbn [app split].
    by rewrite bool_decide_eq_false_2, Hw by done.
Qed.

Lemma split_pad_r sep t ws :
  sep ∉ ws →
  ∃ init lst, split sep t = init ++ [lst]
              ∧ split sep (t ++ ws) = init ++ [lst ++ ws].
Proof.
  intros Hws. induction t as [|c t (init & lst & Ht & Hw)].
  - exists [], []. split; [done|]. by apply split_no_sep.
  - cbn [app split]. case_bool_decide.
    + exists ([] :: init), lst. by rewrite Ht, Hw.
    + rewrite Ht, Hw. destruct init as [|i init].
      * by exists [], (c :: lst).
      * by exists ((c :: i) :: init), lst.
Qed.

Lemma blank_no_comma ws : blank ws → 44%N ∉ ws.
Proof.
  intros Hws Hin. apply (proj1 (Forall_forall _ _) Hws) in Hin. done.
Qed.

Lemma translate_blank_id ws : blank ws → translate _DASHES ws = ws.
Proof.
  unfold translate. induction 1 as [|c ws Hc _ IH]; [done|]. cbn [map].
  rewrite IH. destruct (_DASHES_cases c) as [->|(_ & Hs & _)]; [done|congruence].
Qed.

Lemma same_strip_refl (segs : list str) :
  Forall2 (λ r r', strip r = strip r') segs segs.
Proof. induction segs; by constructor. Qed.

Section padding.
Context `{UnicodeData}.

Lemma loop_body_strip P st raw raw' :
  strip raw = strip raw' → loop_body P st raw = loop_body P st raw'.
Proof. intros Hs. unfold loop_body. destruct st as [w a]. by rewrite Hs. Qed.

Lemma for_loop_strip P st segs segs' :
  Forall2 (λ r r', strip r = strip r') segs segs' →
  for_loop P st segs = for_loop P st segs'.
Proof.
  intros Hs. revert st. induction Hs as [|r r' segs segs' Hr _ IH]; intros st; [done|].
  cbn [for_loop]. rewrite (loop_body_strip P st r r') by done.
  destruct (loop_body P st r') as [st'|]; [|done]. cbn. apply IH.
Qed.

Lemma resolve_nonempty s P :
  s ≠ [] →
  resolve s P
  = '(wanted, any_tok)
      ← for_loop P ([], false) (split 44%N (translate _DASHES s));
    if negb any_tok then Raise (ValueError (Empty_after_parsing s))
    else
      let res := sorted_set wanted in
      if bool_decide (res = []) then Raise (ValueError (No_valid_pages s))
      else Ok (Some res).
Proof. by destruct s. Qed.

Lemma for_loop_padding ws1 s ws2 P st :
  blank ws1 → blank ws2 →
  for_loop P st (split 44%N (translate _DASHES (ws1 ++ s ++ ws2)))
  = for_loop P st (split 44%N (translate _DASHES s)).
Proof.
  intros H1 H2.
  rewrite !translate_app, (translate_blank_id ws1), (translate_blank_id ws2)
    by done.
  set (t := translate _DASHES s).
  destruct (split_pad_l 44%N ws1 (t ++ ws2)) as (hd & tl & Ht & ->);
    [by apply blank_no_comma|].
  rewrite <- (for_loop_strip P st (hd :: tl));
    [|constructor; [by rewrite strip_blank_l|apply same_strip_refl]].
  rewrite <- Ht.
  destruct (split_pad_r 44%N t ws2) as (init & lst & -> & ->);
    [by apply blank_no_comma|].
  apply for_loop_strip, Forall2_app; [apply same_strip_refl|].
  constructor; [by rewrite strip_blank_r|constructor].
Qed.
End padding.

(** X10. Whitespace around an expression is ignored: a non-empty expression
    padded with whitespace on either side resolves to the same result, or
    fails as the expression does. *)
Theorem resolve_padding `{UnicodeData} (ws1 s ws2 : str) (P : Z) :
  s ≠ [] → blank ws1 → blank ws2 →
  same_outcome (resolve (ws1 ++ s ++ ws2) P) (resolve s P).
Proof.
  intros Hs H1 H2. rewrite !resolve_nonempty by (done || by destruct ws1, s).
  rewrite for_loop_padding by done. unfold same_outcome.
  destruct (for_loop _ _ _) as [[w a]|e]; cbn; [|done].
  destruct a; cbn; [|done]. by case_bool_decide.
Qed.

Lemma resolve_padding_witness :
  same_outcome (@resolve ascii_only ([9; 32]%N ++ py "2 - 3 ,last" ++ [10; 0x3000]%N) 6)
               (@resolve ascii_only (py "2 - 3 ,last") 6) ∧
  @resolve ascii_only ([9; 32]%N ++ py "2 - 3 ,last" ++ [10; 0x3000]%N) 6
  = Ok (Some [1; 2; 5]).
Proof.
  split; [|vm_compute; reflexivity].
  apply (@resolve_padding ascii_only); [done | by repeat constructor..].
Defined.

(** ** Letter case *)

(** The ASCII case mapping inside [lower]. *)
#[local] Abbreviation lc :=
  (λ c : N, if ((65 <=? c) && (c <=? 90))%N then (c + 32)%N else c).

Lemma lc_cases (c : N) :
  lc c = c ∨ ((65 ≤ c ≤ 90)%N ∧ lc c = (c + 32)%N).
Proof.
  cbn beta. destruct ((65 <=? c) && (c <=? 90))%N eqn:Hc; [right|by left].
  apply andb_true_iff in Hc as [?%N.leb_le ?%N.leb_le]. done.
Qed.

Lemma letter_not_space (c : N) :
  (65 ≤ c ≤ 90 ∨ 97 ≤ c ≤ 122)%N → Py_UNICODE_ISSPACE c = false.
Proof. intros Hc. apply not_true_is_false. intros Hs. char_facts. lia. Qed.

Lemma lc_space (c : N) : Py_UNICODE_ISSPACE (lc c) = Py_UNICODE_ISSPACE c.
Proof.
  destruct (lc_cases c) as [->|[Hc ->]]; [done|].
  rewrite !letter_not_space; [done|lia..].
Qed.

Lemma lc_comma (c : N) : lc c = 44%N ↔ c = 44%N.
Proof. destruct (lc_cases c) as [->|[Hc ->]]; [done|]. lia. Qed.

Lemma lc_idemp (c : N) : lc (lc c) = lc c.
Proof.
  destruct (lc_cases c) as [Hc|[Hc Hl]]; [by rewrite !Hc|]. rewrite Hl.
  destruct (lc_cases (c + 32)) as [->|[Hc' _]]; [done|lia].
Qed.

Lemma lc_ascii (c : N) : is_ascii c = true → is_ascii (lc c) = true.
Proof.
  unfold is_ascii. rewrite !N.ltb_lt.
  destruct (lc_cases c) as [->|[Hc ->]]; lia.
Qed.

Lemma ascii_dash (c : N) : is_ascii c = true → _DASHES c = c.
Proof.
  intros Hc. unfold _DASHES. case_match eqn:Hd; [|done]. char_facts. lia.
Qed.

Lemma translate_ascii s :
  Forall (λ c, is_ascii c = true) s → translate _DASHES s = s.
Proof.
  unfold translate. induction 1 as [|c s Hc _ IH]; [done|]. cbn [map].
  by rewrite ascii_dash, IH.
Qed.

Lemma map_reverse {A B} (f : A → B) (l : list A) :
  map f (reverse l) = reverse (map f l).
Proof.
  induction l as [|x l IH]; [done|]. cbn [map].
  by rewrite !reverse_cons, map_app, IH.
Qed.

Lemma lstrip_lc s : lstrip (map lc s) = map lc (lstrip s).
Proof.
  induction s as [|c s IH]; [done|]. cbn [map lstrip].
  rewrite lc_space. by destruct (Py_UNICODE_ISSPACE c).
Qed.

Lemma strip_lc s : strip (map lc s) = map lc (strip s).
Proof.
  unfold strip, rstrip. by rewrite lstrip_lc, <- map_reverse, lstrip_lc, map_reverse.
Qed.

Lemma split_lc s : split 44%N (map lc s) = map (map lc) (split 44%N s).
Proof.
  induction s as [|c s IH]; [done|]. cbn [map split]. rewrite IH.
  rewrite (bool_decide_ext _ _ (lc_comma c)). case_bool_decide; [done|].
  pose proof (split_nonempty 44%N s). by destruct (split 44%N s).
Qed.

Lemma split_Forall (Q : N → Prop) sep s :
  Forall Q s → Forall (Forall Q) (split sep s).
Proof.
  induction 1 as [|c s Hc Hs IH]; [by repeat constructor|]. cbn [split].
  case_bool_decide; [by repeat constructor|].
  destruct IH as [|w ws Hw Hws]; by repeat constructor.
Qed.

Lemma strip_Forall (Q : N → Prop) s : Forall Q s → Forall Q (strip s).
Proof.
  intros Hs. destruct (strip_decompose s) as (ws1 & ws2 & Hd & _).
  rewrite Hd in Hs. by apply Forall_app in Hs as [_ [? _]%Forall_app].
Qed.

Section letter_case.
Context `{UnicodeData}.

Lemma lower_ascii s :
  Forall (λ c, is_ascii c = true) s → lower s = map lc s.
Proof.
  intros Hs. unfold lower.
  assert (forallb is_ascii s = true) as ->; [|done].
  induction Hs as [|c s Hc _ IH]; [done|]. cbn. by rewrite Hc, IH.
Qed.

Lemma lower_ascii_idemp s :
  Forall (λ c, is_ascii c = true) s → lower (map lc s) = lower s.
Proof.
  intros Hs. rewrite !lower_ascii; [|done|].
  - rewrite map_map. apply map_ext. intros c. apply lc_idemp.
  - apply Forall_fmap. eapply Forall_impl; [done|]. intros c. apply lc_ascii.
Qed.

Lemma last_offset_same tok tok' t :
  same_outcome (last_offset tok' t) (last_offset tok t).
Proof.
  unfold last_offset, same_outcome. destruct (_ !! _); [|done].
  destruct (isdigit _); [|done]. by destruct (int_ _).
Qed.

Lemma _parse_one_token_same tok tok' P :
  lower (strip tok') = lower (strip tok) →
  same_outcome (_parse_one_token tok' P) (_parse_one_token tok P).
Proof.
  intros Ht. unfold _parse_one_token. rewrite Ht.
  case_bool_decide; [done|]. case_bool_decide; [done|].
  destruct (startswith _ _).
  - pose proof (last_offset_same tok tok' (lower (strip tok))) as Ho.
    unfold same_outcome in *.
    destruct (last_offset tok' _), (last_offset tok _); try done; cbn.
    subst. by case_bool_decide.
  - unfold same_outcome. destruct (isdigit _); [|done].
    destruct (int_ _); [|done]. by case_bool_decide.
Qed.

(** The loop body reads a segment through [strip] and [lower] only. *)
Lemma loop_body_same P st raw raw' :
  (strip raw' = [] ↔ strip raw = []) →
  lower (strip raw') = lower (strip raw) →
  same_outcome (loop_body P st raw') (loop_body P st raw).
Proof.
  intros Hnil Hl. unfold loop_body. destruct st as [w a].
  rewrite (bool_decide_ext _ _ Hnil), Hl. case_bool_decide; [done|].
  destruct (fullmatch _SINGLE_RE _) as [m|].
  - pose proof (_parse_one_token_same (strip raw) (strip raw') P) as Ht.
    rewrite !strip_idemp in Ht. specialize (Ht Hl). unfold same_outcome in *.
    destruct (_parse_one_token (strip raw') P),
             (_parse_one_token (strip raw) P); try done; cbn.
    subst. by case_bool_decide.
  - unfold same_outcome. destruct (fullmatch _RANGE_RE _) as [m|]; [|done].
    destruct (_parse_endpoint (group m 1) _); [|done].
    destruct (_parse_endpoint (group m 2) _); [|done]. cbn.
    by case_bool_decide.
Qed.

Lemma for_loop_same P st segs segs' :
  Forall2 (λ r' r, (strip r' = [] ↔ strip r = [])
                   ∧ lower (strip r') = lower (strip r)) segs' segs →
  same_outcome (for_loop P st segs') (for_loop P st segs).
Proof.
  intros Hs. revert st.
  induction Hs as [|r' r segs' segs [Hnil Hl] _ IH]; intros st; [done|].
  cbn [for_loop]. pose proof (loop_body_same P st r r' Hnil Hl) as Hb.
  unfold same_outcome in Hb.
  destruct (loop_body P st r'), (loop_body P st r); try done; cbn.
  subst. apply IH.
Qed.
Lemma lower_segments segs :
  Forall (Forall (λ c, is_ascii c = true)) segs →
  Forall2 (λ r' r, (strip r' = [] ↔ strip r = [])
                   ∧ lower (strip r') = lower (strip r))
          (map (map lc) segs) segs.
Proof.
  induction 1 as [|r segs Hr _ IH]; cbn [map]; constructor; [|done].
  rewrite strip_lc. split.
  - by destruct (strip r).
  - apply lower_ascii_idemp. by apply strip_Forall.
Qed.
End letter_case.

(** X11. Letter case is ignored: an ASCII expression and its lower-case form
    resolve to the same result, or both fail. *)
Theorem resolve_case_insensitive `{UnicodeData} (s : str) (P : Z) :
  Forall (λ c, is_ascii c = true) s →
  same_outcome (resolve (lower s) P) (resolve s P).
Proof.
  intros Hs. destruct s as [|c s]; [done|].
  rewrite lower_ascii by done.
  assert (Forall (λ c, is_ascii c = true) (map lc (c :: s))) as Hs'.
  { apply Forall_fmap. eapply Forall_impl; [done|]. intros d. apply lc_ascii. }
  rewrite !resolve_nonempty by done.
  rewrite !translate_ascii by done. rewrite split_lc.
  pose proof (for_loop_same P ([], false) (split 44%N (c :: s)) _
                (lower_segments _ (split_Forall _ 44%N _ Hs))) as Hl.
  unfold same_outcome in *.
  destruct (for_loop P _ (map _ _)) as [[w' a']|],
           (for_loop P _ (split _ _)) as [[w a]|]; try done; cbn.
  injection Hl as -> ->. destruct a; cbn; [|done]. by case_bool_decide.
Qed.

Lemma resolve_case_insensitive_witness :
  same_outcome (@resolve ascii_only (@lower ascii_only (py "LAST-1, All")) 4)
               (@resolve ascii_only (py "LAST-1, All") 4) ∧
  @resolve ascii_only (py "LAST-1, All") 4 = Ok (Some [0; 1; 2; 3]).
Proof.
  split; [|vm_compute; reflexivity].
  apply (@resolve_case_insensitive ascii_only). by repeat constructor.
Defined.


(** ** The groups of a match *)

Section groups.
Context `{UnicodeData}.
Implicit Types (st : mstate) (r : regex) (w : str).

Lemma rmatch_gshape r st st' :
  st' ∈ rmatch r st →
  ∃ w, rest st = w ++ rest st' ∧ pos st' = (pos st + length w)%nat
       ∧ gshape r w (groups st) (groups st').
Proof.
  revert st st'.
  induction r as [| |s|k|k|r IH|r1 IH1 r2 IH2|r1 IH1 r2 IH2|n r IH];
    intros st st'; cbn [rmatch gshape].
  - case_bool_decide; [|by intros ?%elem_of_nil].
    intros ->%list_elem_of_singleton. exists []. cbn. by rewrite Nat.add_0_r.
  - case_bool_decide; [|by intros ?%elem_of_nil].
    intros ->%list_elem_of_singleton. exists []. cbn. by rewrite Nat.add_0_r.
  - destruct (startswith s (rest st)) eqn:Hs; [|by intros ?%elem_of_nil].
    intros ->%list_elem_of_singleton. exists s. split_and!; try done.
    by apply startswith_spec.
  - intros (n & -> & Hn)%list_elem_of_fmap.
    apply runs_spec in Hn as [Hle Hn]. exists (take n (rest st)).
    cbn [advance rest pos groups]. rewrite take_drop, length_take.
    split_and!; try done. lia.
  - intros (n & -> & [Hn0 Hn]%list_elem_of_filter)%list_elem_of_fmap.
    apply runs_spec in Hn as [Hle Hn]. exists (take n (rest st)).
    cbn [advance rest pos groups]. rewrite take_drop, length_take.
    split_and!; try done; [lia|].
    destruct (rest st); [simpl in Hle; lia|]. by destruct n.
  - intros [Hr| ->%list_elem_of_singleton]%elem_of_app.
    + destruct (IH _ _ Hr) as (w & Hw & Hp & Hs). eauto.
    + exists []. cbn. rewrite Nat.add_0_r. eauto.
  - intros (m & Hm & Hst)%list_elem_of_In%in_flat_map.
    apply list_elem_of_In in Hm, Hst.
    destruct (IH1 _ _ Hm) as (w1 & Hw1 & Hp1 & Hs1).
    destruct (IH2 _ _ Hst) as (w2 & Hw2 & Hp2 & Hs2).
    exists (w1 ++ w2). split_and!.
    + by rewrite Hw1, Hw2, (assoc_L (++)).
    + rewrite length_app. lia.
    + eauto 6.
  - intros [Hr|Hr]%elem_of_app.
    + destruct (IH1 _ _ Hr) as (w & Hw & Hp & Hs). eauto.
    + destruct (IH2 _ _ Hr) as (w & Hw & Hp & Hs). eauto.
  - intros (m & -> & Hm)%list_elem_of_fmap.
    destruct (IH _ _ Hm) as (w & Hw & Hp & Hs).
    exists w. cbn [set_group rest pos groups]. split_and!; try done.
    exists (groups m). split; [done|]. do 2 f_equal.
    rewrite Hw, Hp. apply take_app_length'. lia.
Qed.

Lemma fullmatch_gshape r s m : fullmatch r s = Some m → gshape r s [] m.
Proof.
  unfold fullmatch. intros (st & Hst & Hg)%fmap_Some. subst m.
  apply head_Some_elem_of, list_elem_of_filter in Hst as [Hrest Hst].
  apply rmatch_gshape in Hst as (w & Hw & _ & Hs). cbn [rest groups] in *.
  by rewrite Hw, Hrest, app_nil_r.
Qed.

Lemma last_re_form w g g' :
  gshape last_re w g g' → endpoint_form w ∧ g' = g.
Proof.
  unfold last_re. cbn [gshape].
  intros (w1 & w2 & gm & -> & [-> ->] & [(w3 & w4 & gn & -> & [-> ->] & Hd & ->)|[-> ->]]).
  - split; [|done]. right. exists w4. split; [done|]. by left.
  - split; [|done]. left. by rewrite app_nil_r.
Qed.

Lemma endpoint_alt_form w g g' :
  gshape (Alt last_re (Plus cls_digit)) w g g' → endpoint_form w ∧ g' = g.
Proof.
  cbn [gshape]. intros [Hl|[Hd ->]]; [by apply last_re_form|].
  split; [|done]. right. exists w. split; [done|]. by right.
Qed.

(** A match of [_RANGE_RE] is two endpoint forms around a [-], with optional
    whitespace, and its groups are the two endpoints. *)
Lemma fullmatch_range_form s m :
  fullmatch _RANGE_RE s = Some m →
  ∃ sp0 g1 sp1 sp2 g2 sp3,
    s = sp0 ++ g1 ++ sp1 ++ py "-" ++ sp2 ++ g2 ++ sp3
    ∧ blank sp0 ∧ blank sp1 ∧ blank sp2 ∧ blank sp3
    ∧ endpoint_form g1 ∧ endpoint_form g2
    ∧ group m 1 = g1 ∧ group m 2 = g2.
Proof.
  intros Hm%fullmatch_gshape. revert Hm. unfold _RANGE_RE. cbn [gshape].
  intros (? & ? & ? & -> & [-> ->] & sp0 & ? & ? & -> & [H0 ->]
          & g1 & ? & ? & -> & (? & [F1 ->]%endpoint_alt_form & ->)
          & sp1 & ? & ? & -> & [H1 ->] & ? & ? & ? & -> & [-> ->]
          & sp2 & ? & ? & -> & [H2 ->]
          & g2 & ? & ? & -> & (? & [F2 ->]%endpoint_alt_form & ->)
          & sp3 & ? & ? & -> & [H3 ->] & -> & ->).
  exists sp0, g1, sp1, sp2, g2, sp3. rewrite app_nil_r. by split_and!.
Qed.

(** A match of [_SINGLE_RE] is a single form with optional whitespace. *)
Lemma fullmatch_single_form s m :
  fullmatch _SINGLE_RE s = Some m →
  ∃ sp0 t sp1, s = sp0 ++ t ++ sp1 ∧ blank sp0 ∧ blank sp1 ∧ single_form t.
Proof.
  intros Hm%fullmatch_gshape. revert Hm. unfold _SINGLE_RE. cbn [gshape].
  intros (? & ? & ? & -> & [-> ->] & sp0 & ? & ? & -> & [H0 ->]
          & t & ? & ? & -> & (? & Ht & ->)
          & sp1 & ? & ? & -> & [H1 ->] & -> & ->).
  exists sp0, t, sp1. rewrite app_nil_r. split_and!; try done.
  destruct Ht as [[? _]%last_re_form|[[Hd _]|[-> _]]].
  - by left.
  - left. right. exists t. split; [done|]. by right.
  - by right.
Qed.
End groups.

(** ** The errors that can be raised *)

Section taxonomy.
Context `{UnicodeData}.
Implicit Types (P : Z) (g t tok ds : str).










End taxonomy.




(** ** The texts the two patterns accept *)

Lemma runs_zero (p : N → bool) s : O ∈ runs p s.
Proof.
  destruct s as [|c s]; cbn [runs]; [by left|].
  destruct (p c); [|by left]. apply elem_of_app. right. by left.
Qed.

Lemma runs_complete (p : N → bool) w rs :
  Forall (λ c, p c = true) w → length w ∈ runs p (w ++ rs).
Proof.
  induction 1 as [|c w Hc _ IH]; [apply runs_zero|].
  cbn [app runs length]. rewrite Hc. apply elem_of_app. left.
  by apply (list_elem_of_fmap_2 S).
Qed.

Section complete.
Context `{UnicodeData}.
Implicit Types (st : mstate) (r : regex) (w rs : str).

Lemma rmatch_complete r st w rs :
  anchor_free r = true → rest st = w ++ rs → shape r w →
  ∃ st', st' ∈ rmatch r st ∧ rest st' = rs.
Proof.
  revert st w rs.
  induction r as [| |s|k|k|r IH|r1 IH1 r2 IH2|r1 IH1 r2 IH2|n r IH];
    intros st w rs Hr Hst; cbn [rmatch shape anchor_free] in *; try done.
  - intros ->. rewrite Hst, startswith_app. eexists. split; [by left|].
    cbn [advance rest]. by rewrite Hst, drop_app_length.
  - intros Hw. exists (advance (length w) st). split.
    + apply (list_elem_of_fmap_2 (λ n, advance n st)).
      rewrite Hst. by apply runs_complete.
    + cbn [advance rest]. by rewrite Hst, drop_app_length.
  - intros [Hne Hw]. exists (advance (length w) st). split.
    + apply (list_elem_of_fmap_2 (λ n, advance n st)), list_elem_of_filter.
      split; [by destruct w|]. rewrite Hst. by apply runs_complete.
    + cbn [advance rest]. by rewrite Hst, drop_app_length.
  - intros [Hw| ->].
    + destruct (IH st w rs Hr Hst Hw) as (st' & Hin & Hrest).
      exists st'. split; [|done]. apply elem_of_app. by left.
    + exists st. split; [|done]. apply elem_of_app. right. by left.
  - apply andb_true_iff in Hr as [Hr1 Hr2]. intros (w1 & w2 & -> & Hw1 & Hw2).
    rewrite <- (assoc_L (++)) in Hst.
    destruct (IH1 st w1 (w2 ++ rs) Hr1 Hst Hw1) as (m & Hm & Hrm).
    destruct (IH2 m w2 rs Hr2 Hrm Hw2) as (st' & Hin & Hrest).
    exists st'. split; [|done]. apply list_elem_of_In, in_flat_map.
    exists m. by rewrite <- !list_elem_of_In.
  - apply andb_true_iff in Hr as [Hr1 Hr2]. intros [Hw|Hw].
    + destruct (IH1 st w rs Hr1 Hst Hw) as (st' & Hin & Hrest).
      exists st'. split; [|done]. apply elem_of_app. by left.
    + destruct (IH2 st w rs Hr2 Hst Hw) as (st' & Hin & Hrest).
      exists st'. split; [|done]. apply elem_of_app. by right.
  - intros Hw. destruct (IH st w rs Hr Hst Hw) as (st' & Hin & Hrest).
    exists (set_group n st st'). split; [|done].
    by apply (list_elem_of_fmap_2 (set_group n st)).
Qed.

Lemma rmatch_complete_end r st w :
  ends_in_eol r = true → rest st = w → shape r w →
  ∃ st', st' ∈ rmatch r st ∧ rest st' = [].
Proof.
  revert st w. induction r as [| |s|k|k|r IH|r1 IH1 r2 IH2|r1 IH1 r2 IH2|n r IH];
    intros st w Hr Hst; cbn [ends_in_eol] in *; try done.
  - cbn [shape rmatch]. intros ->. exists st.
    rewrite bool_decide_eq_true_2 by auto. split; [by left|done].
  - apply andb_true_iff in Hr as [Hr1 Hr2]. cbn [shape rmatch].
    intros (w1 & w2 & -> & Hw1 & Hw2).
    destruct (rmatch_complete r1 st w1 w2 Hr1 Hst Hw1) as (m & Hm & Hrm).
    destruct (IH2 m w2 Hr2 Hrm Hw2) as (st' & Hin & Hrest).
    exists st'. split; [|done]. apply list_elem_of_In, in_flat_map.
    exists m. by rewrite <- !list_elem_of_In.
Qed.

(** An anchored pattern fully matches exactly the texts of its shape. *)
Lemma fullmatch_iff_shape r s :
  ends_in_eol r = true →
  is_Some (fullmatch (Bol ⋅ r) s) ↔ shape (Bol ⋅ r) s.
Proof.
  intros Hr. split; [intros [m Hm]; by eapply fullmatch_shape|].
  cbn [shape]. intros (? & w & -> & -> & Hw).
  destruct (rmatch_complete_end r (MState 0 w []) w Hr eq_refl Hw)
    as (st' & Hin & Hrest).
  unfold fullmatch. cbn [rmatch pos].
  rewrite bool_decide_eq_true_2 by done. cbn [flat_map]. rewrite app_nil_r.
  assert (st' ∈ filter (λ st, rest st = []) (rmatch r (MState 0 w []))) as Hf
    by by apply list_elem_of_filter.
  destruct (filter _ _) as [|x l]; [by apply elem_of_nil in Hf|].
  by eexists.
Qed.

Lemma endpoint_form_shape g :
  endpoint_form g ↔ shape (Alt last_re (Plus cls_digit)) g.
Proof.
  unfold endpoint_form, last_re. cbn [shape]. split.
  - intros [->|(ds & Hd & [->| ->])].
    + left. exists (py "last"), []. by rewrite app_nil_r; auto.
    + left. exists (py "last"), (py "-" ++ ds). split; [done|].
      split; [done|]. left. by exists (py "-"), ds.
    + by right.
  - intros [(? & ? & -> & -> & [(? & ds & -> & -> & Hd)| ->])|Hd].
    + right. exists ds. split; [done|]. by left.
    + left. by rewrite app_nil_r.
    + right. exists g. split; [done|]. by right.
Qed.
End complete.

(** X13. The grammar of a segment. [_SINGLE_RE] fully matches exactly the
    texts [last], [last-<digits>], [<digits>] and [all] with optional
    whitespace around them; [_RANGE_RE] fully matches exactly two endpoints
    [last], [last-<digits>] or [<digits>] around a [-], with optional
    whitespace around each part. Nothing may precede or follow. *)
Theorem segment_grammar `{UnicodeData} (s : str) :
  (is_Some (fullmatch _SINGLE_RE s) ↔
   ∃ sp0 t sp1, s = sp0 ++ t ++ sp1 ∧ blank sp0 ∧ blank sp1 ∧ single_form t)
  ∧
  (is_Some (fullmatch _RANGE_RE s) ↔
   ∃ sp0 g1 sp1 sp2 g2 sp3,
     s = sp0 ++ g1 ++ sp1 ++ py "-" ++ sp2 ++ g2 ++ sp3
     ∧ blank sp0 ∧ blank sp1 ∧ blank sp2 ∧ blank sp3
     ∧ endpoint_form g1 ∧ endpoint_form g2).
Proof.
  split.
  - split.
    { intros [m Hm]. by eapply fullmatch_single_form. }
    intros (sp0 & t & sp1 & -> & H0 & H1 & Ht).
    unfold _SINGLE_RE. apply fullmatch_iff_shape; [done|]. cbn [shape].
    exists [], (sp0 ++ t ++ sp1). split_and!; try done.
    exists sp0, (t ++ sp1). split_and!; try done.
    exists t, sp1. split_and!; try done.
    + destruct Ht as [Ht| ->]; [|by auto].
      apply endpoint_form_shape in Ht as [Ht|Ht]; cbn [shape]; auto.
    + exists sp1, []. by rewrite app_nil_r.
  - split.
    { intros [m Hm].
      apply fullmatch_range_form in Hm
        as (sp0 & g1 & sp1 & sp2 & g2 & sp3 & ? & ? & ? & ? & ? & ? & ? & _).
      by exists sp0, g1, sp1, sp2, g2, sp3. }
    intros (sp0 & g1 & sp1 & sp2 & g2 & sp3 & -> & H0 & H1 & H2 & H3 & F1 & F2).
    unfold _RANGE_RE. apply fullmatch_iff_shape; [done|]. cbn [shape].
    exists [], (sp0 ++ g1 ++ sp1 ++ py "-" ++ sp2 ++ g2 ++ sp3).
    split_and!; try done.
    eexists sp0, _. split_and!; try done.
    eexists g1, _. split_and!; [done|by apply endpoint_form_shape|].
    eexists sp1, _. split_and!; try done.
    eexists (py "-"), _. split_and!; try done.
    eexists sp2, _. split_and!; try done.
    eexists g2, _. split_and!; [done|by apply endpoint_form_shape|].
    exists sp3, []. by rewrite app_nil_r.
Qed.


(** * Properties of the text pipeline *)

Lemma non_whitespace_count_app a b :
  non_whitespace_count (a ++ b) = non_whitespace_count a + non_whitespace_count b.
Proof. induction a as [|c a IH]; cbn [app non_whitespace_count]; lia. Qed.

Lemma non_whitespace_count_blank ws : blank ws → non_whitespace_count ws = 0.
Proof.
  induction 1 as [|c ws Hc _ IH]; [done|]. cbn [non_whitespace_count].
  rewrite Hc. lia.
Qed.

Lemma non_whitespace_count_bounds s : 0 ≤ non_whitespace_count s ≤ len s.
Proof.
  unfold len. induction s as [|c s IH]; cbn [non_whitespace_count length]; [lia|].
  destruct (Py_UNICODE_ISSPACE c); lia.
Qed.

Lemma _is_scanned_count txt :
  _is_scanned txt = bool_decide (non_whitespace_count txt < 20).
Proof. unfold _is_scanned. cbn zeta. by rewrite len_non_whitespace. Qed.

(** X14. The scanned-page test looks at non-whitespace characters only:
    whitespace inserted anywhere does not change it, a text that passes for
    scanned has every part pass for scanned, and a text that does not holds
    at least 20 characters. *)
Theorem _is_scanned_whitespace :
  (∀ a ws b, blank ws → _is_scanned (a ++ ws ++ b) = _is_scanned (a ++ b)) ∧
  (∀ a b, _is_scanned (a ++ b) = true →
          _is_scanned a = true ∧ _is_scanned b = true) ∧
  (∀ txt, _is_scanned txt = false → 20 ≤ len txt).
Proof.
  split_and!.
  - intros a ws b Hws. rewrite !_is_scanned_count, !non_whitespace_count_app.
    by rewrite (non_whitespace_count_blank ws), Z.add_0_l.
  - intros a b. rewrite !_is_scanned_count, non_whitespace_count_app.
    rewrite !bool_decide_eq_true.
    pose proof (non_whitespace_count_bounds a).
    pose proof (non_whitespace_count_bounds b). lia.
  - intros txt. rewrite _is_scanned_count. intros Hs%bool_decide_eq_false.
    pose proof (non_whitespace_count_bounds txt). lia.
Qed.

Lemma _is_scanned_whitespace_witness :
  _is_scanned (py "ab" ++ [32; 9; 10]%N ++ py "cd") = _is_scanned (py "ab" ++ py "cd") ∧
  20 ≤ len (py "abcdefghij klmnopqrst").
Proof.
  destruct _is_scanned_whitespace as (Hws & _ & Hlen). split.
  - apply Hws. by repeat constructor.
  - apply Hlen. reflexivity.
Defined.

(** X15. The text kept for a page is the direct text or the OCR text, and
    after stripping it is never shorter than the direct text; it is the
    direct text whenever OCR is disabled or the page holds 20 or more
    non-whitespace characters, and otherwise its stripped length is the
    larger of the two. *)
Theorem page_text_never_shorter (ocr_if_scanned : bool) (ocr_txt txt : str) :
  (page_text ocr_if_scanned ocr_txt txt = txt
   ∨ page_text ocr_if_scanned ocr_txt txt = ocr_txt) ∧
  len (strip txt) ≤ len (strip (page_text ocr_if_scanned ocr_txt txt)) ∧
  (ocr_if_scanned = false ∨ 20 ≤ non_whitespace_count txt →
   page_text ocr_if_scanned ocr_txt txt = txt) ∧
  (ocr_if_scanned = true → non_whitespace_count txt < 20 →
   len (strip (page_text ocr_if_scanned ocr_txt txt))
   = Z.max (len (strip txt)) (len (strip ocr_txt))).
Proof.
  unfold page_text, pick_text. rewrite _is_scanned_count. split_and!.
  - destruct (_ && _); [case_bool_decide|]; auto.
  - destruct (_ && _); [case_bool_decide|]; lia.
  - intros [->|Hn]; [by rewrite andb_false_r|].
    rewrite bool_decide_eq_false_2 by lia. done.
  - intros -> Hn. rewrite bool_decide_eq_true_2 by done. cbn [andb].
    case_bool_decide; lia.
Qed.

Lemma page_text_never_shorter_witness :
  len (strip (page_text true (py " recognized ") (py "x")))
  = Z.max (len (strip (py "x"))) (len (strip (py " recognized "))) ∧
  page_text false (py " recognized ") (py "x") = py "x".
Proof.
  destruct (page_text_never_shorter true (py " recognized ") (py "x"))
    as (_ & _ & _ & Hmax).
  destruct (page_text_never_shorter false (py " recognized ") (py "x"))
    as (_ & _ & Hoff & _).
  split; [apply Hmax; [reflexivity|vm_compute; reflexivity]|].
  apply Hoff. by left.
Defined.


(** ** Extraction over the selected pages *)

Lemma extract_full_text_pages T flag doc selected :
  (extract_full_text T flag doc selected).1
  = (λ i, page_text flag (_ocr_page T doc i) (get_text doc i))
      <$> default (range 0 (page_count doc)) selected.
Proof. by destruct selected. Qed.

(** X16. Without an OCR engine ([TESS_AVAILABLE] false) or with OCR disabled
    ([--no-ocr]), the extracted page texts are exactly the direct texts of
    the selected pages, in the order of the selection. *)
Theorem extract_full_text_direct
    (T flag : bool) (doc : document) (selected : option (list Z)) :
  T = false ∨ flag = false →
  (extract_full_text T flag doc selected).1
  = get_text doc <$> default (range 0 (page_count doc)) selected.
Proof.
  intros Hoff. rewrite extract_full_text_pages. apply list_fmap_ext.
  intros _ i _. destruct Hoff as [->| ->].
  - unfold page_text, pick_text, _ocr_page. cbn [negb].
    destruct (_ && _); [|done]. rewrite bool_decide_eq_false_2; [done|].
    change (strip []) with (@nil N). unfold len. cbn [length]. lia.
  - unfold page_text. by rewrite andb_false_r.
Qed.

Lemma extract_full_text_direct_witness :
  (extract_full_text true false
     (Document 2 (λ i, if bool_decide (i = 0) then py "a" else py "b")
               (λ _, py "recognized")) (Some [1; 0])).1
  = [py "b"; py "a"].
Proof.
  rewrite extract_full_text_direct; [reflexivity|by right].
Defined.

(** X17. Selection and extraction fit together: every index the parser
    returns for a document is a page of that document, the extracted list
    has one text per selected page, each being the text that page has in
    the extraction of the whole document; and selecting the full list, as
    ["all"] does, gives the same result as giving no expression. *)
Theorem extract_selected_pages `{UnicodeData}
    (T flag : bool) (doc : document) (pages : option str) (res : list Z) :
  1 ≤ page_count doc →
  parse_pages_arg pages (page_count doc) = Ok (Some res) →
  length (extract_full_text T flag doc (Some res)).1 = length res ∧
  (∀ k idx, res !! k = Some idx →
     0 ≤ idx < page_count doc ∧
     is_Some ((extract_full_text T flag doc None).1 !! Z.to_nat idx) ∧
     (extract_full_text T flag doc (Some res)).1 !! k
     = (extract_full_text T flag doc None).1 !! Z.to_nat idx) ∧
  (res = range 0 (page_count doc) →
   extract_full_text T flag doc (Some res) = extract_full_text T flag doc None) ∧
  (resolve (py "all") (page_count doc) ≫= λ sel, Ok (extract_full_text T flag doc sel))
  = Ok (extract_full_text T flag doc None).
Proof.
  intros HP Hres.
  destruct (parse_pages_arg_list _ _ _ HP Hres) as (_ & _ & _ & Hin).
  split_and!.
  - rewrite extract_full_text_pages. apply length_fmap.
  - intros k idx Hk.
    assert (0 ≤ idx ≤ page_count doc - 1) as Hidx.
    { by apply (proj1 (Forall_forall _ _) Hin), list_elem_of_lookup_2 with k. }
    rewrite !extract_full_text_pages, !list_lookup_fmap.
    unfold default, id. cbn [from_option].
    rewrite Hk, (range_lookup 0 _ (Z.to_nat idx)) by lia. cbn.
    rewrite Z2Nat.id by lia. split_and!; [lia..|by eexists|done].
  - by intros ->.
  - by rewrite resolve_all.
Qed.

Lemma extract_selected_pages_witness :
  (extract_full_text true true
     (Document 3 (λ i, str_of_Z i) (λ _, [])) (Some [0; 2])).1 !! 1%nat
  = (extract_full_text true true
       (Document 3 (λ i, str_of_Z i) (λ _, [])) None).1 !! Z.to_nat 2.
Proof.
  apply (@extract_selected_pages ascii_only true true
           (Document 3 (λ i, str_of_Z i) (λ _, [])) (Some (py "last,1")) [0; 2]);
    [cbn; lia | vm_compute; reflexivity | reflexivity].
Defined.

(** ** Per-page files *)

Section names.
Context `{UnicodeData}.

Lemma int_zeros k acc :
  foldl (λ acc c, n ← acc; d ← Py_UNICODE_TODECIMAL c; Some (10 * n + d))
        (Some 0) (replicate k 48%N ++ acc)
  = foldl (λ acc c, n ← acc; d ← Py_UNICODE_TODECIMAL c; Some (10 * n + d))
          (Some 0) acc.
Proof. induction k as [|k IH]; [done|]. cbn [replicate app foldl]. apply IH. Qed.

Lemma int_format_04d n : 0 ≤ n → int_ (format_04d n) = Some n.
Proof.
  intros Hn. unfold format_04d. rewrite bool_decide_eq_false_2 by lia. cbn zeta.
  unfold int_.
  destruct (numeral_digits_of (S (Z.to_nat n)) n Hn) as [Hne _]; [lia|].
  destruct (replicate _ _ ++ _) as [|c l] eqn:Hl.
  { apply app_eq_nil in Hl as [_ Hl]. done. }
  rewrite <- Hl, int_zeros. apply int_digits_of; lia.
Qed.

Lemma length_format_04d n : 0 ≤ n → (4 ≤ length (format_04d n))%nat.
Proof.
  intros Hn. unfold format_04d. rewrite bool_decide_eq_false_2 by lia. cbn zeta.
  rewrite length_app, length_replicate. lia.
Qed.

Lemma page_txt_name_inj i j :
  0 ≤ i → 0 ≤ j → page_txt_name i = page_txt_name j → i = j.
Proof.
  intros Hi Hj. unfold page_txt_name.
  intros Hn%app_inv_head%app_inv_tail.
  assert (int_ (format_04d (i + 1)) = int_ (format_04d (j + 1))) as Hint
    by by rewrite Hn.
  rewrite !int_format_04d in Hint by lia. injection Hint. lia.
Qed.
End names.

(** X18. The file name of a page can be read back: for every page index
    [idx ≥ 0] the number in [page_NNNN.txt] has at least four digits and its
    value is [idx + 1], so two different pages never share a file name. *)
Theorem page_txt_name_round_trip `{UnicodeData} :
  (∀ idx, 0 ≤ idx →
     (4 ≤ length (format_04d (idx + 1)))%nat ∧
     int_ (format_04d (idx + 1)) = Some (idx + 1)) ∧
  (∀ i j, 0 ≤ i → 0 ≤ j → page_txt_name i = page_txt_name j → i = j) ∧
  page_txt_name 6 = py "page_0007.txt" ∧
  page_txt_name 12344 = py "page_12345.txt".
Proof.
  split_and!; [| |reflexivity..].
  - intros idx Hidx. split; [apply length_format_04d|apply int_format_04d]; lia.
  - apply page_txt_name_inj.
Qed.

Lemma page_txt_name_round_trip_witness :
  (4 ≤ length (format_04d (41 + 1)))%nat ∧
  @int_ ascii_only (format_04d (41 + 1)) = Some (41 + 1).
Proof. apply (proj1 (@page_txt_name_round_trip ascii_only)). lia. Defined.

Lemma write_per_page_txt_other sel texts outdir name :
  (∀ idx, idx ∈ sel → name ≠ page_txt_name idx) →
  write_per_page_txt sel texts outdir !! name = outdir !! name.
Proof.
  unfold write_per_page_txt. revert texts outdir.
  induction sel as [|i sel IH]; intros [|t texts] outdir Hname; try done.
  cbn [zip zip_with foldl]. rewrite IH.
  - apply lookup_insert_ne. intros Heq. eapply Hname; [by left|done].
  - intros idx Hidx. apply Hname. by right.
Qed.

Lemma write_per_page_txt_lookup sel texts outdir k idx txt :
  NoDup sel → Forall (λ i, 0 ≤ i) sel →
  sel !! k = Some idx → texts !! k = Some txt →
  write_per_page_txt sel texts outdir !! page_txt_name idx = Some txt.
Proof.
  unfold write_per_page_txt. revert texts outdir k.
  induction sel as [|i sel IH]; intros [|t texts] outdir k Hnd Hpos; try done.
  apply NoDup_cons in Hnd as [Hi Hnd]. apply Forall_cons in Hpos as [Hi0 Hpos].
  cbn [zip zip_with foldl]. destruct k as [|k]; cbn.
  - intros [= ->] [= ->].
    pose proof (write_per_page_txt_other sel texts
                  (<[page_txt_name idx := txt]> outdir) (page_txt_name idx)) as Ho.
    unfold write_per_page_txt in Ho. rewrite Ho; [apply lookup_insert_eq|].
    intros j Hj Heq. apply (@page_txt_name_inj ascii_only) in Heq; [by subst| done |].
    by apply (proj1 (Forall_forall _ _) Hpos).
  - by apply IH.
Qed.

(** X19. The per-page files of a selection: when the pages come from
    [parse_pages_arg] and [text_per_page] holds one text per page, the file
    [page_NNNN.txt] of every selected page holds the text extracted for that
    page (no file is overwritten by another page), and every other file of
    the directory is left as it was. *)
Theorem write_per_page_txt_files `{UnicodeData}
    (pages : option str) (P : Z) (res : list Z) (texts : list str)
    (outdir : gmap (list N) (list N)) :
  1 ≤ P → parse_pages_arg pages P = Ok (Some res) →
  length texts = length res →
  (∀ k idx, res !! k = Some idx →
     ∃ txt, texts !! k = Some txt ∧
            write_per_page_txt res texts outdir !! page_txt_name idx = Some txt) ∧
  (∀ name, (∀ idx, idx ∈ res → name ≠ page_txt_name idx) →
     write_per_page_txt res texts outdir !! name = outdir !! name).
Proof.
  intros HP Hres Hlen.
  destruct (parse_pages_arg_list _ _ _ HP Hres) as (_ & Hnd & _ & Hin).
  split; [|intros name; apply write_per_page_txt_other].
  intros k idx Hk.
  destruct (lookup_lt_is_Some_2 texts k) as [txt Htxt].
  { rewrite Hlen. by eapply lookup_lt_Some. }
  exists txt. split; [done|].
  eapply write_per_page_txt_lookup; [done| |done..].
  eapply Forall_impl; [done|]. cbn. lia.
Qed.

Lemma write_per_page_txt_files_witness :
  ∃ txt, [py "first page"; py "last page"] !! 1%nat = Some txt ∧
    write_per_page_txt [0; 8] [py "first page"; py "last page"] ∅
      !! page_txt_name 8 = Some txt.
Proof.
  apply (proj1 (@write_per_page_txt_files ascii_only (Some (py "last,1")) 9 [0; 8]
                  [py "first page"; py "last page"] ∅
                  ltac:(lia) ltac:(vm_compute; reflexivity) eq_refl)).
  reflexivity.
Defined.


(** ** Page numbers with leading zeros *)

Section zeros.
Context `{UnicodeData}.




End zeros.


